(** * Windows-1252 codec: a shallow embedding of [decode.ts] and [encode.ts]

    The development has three layers.

    - [Host]: the fragment of the ECMAScript runtime the two source files
      call (strings as sequences of 16-bit code units, [codePointAt],
      [String.fromCodePoint], [Number.prototype.toString], [padStart],
      array and typed-array stores, thrown errors). Two things are taken
      from the host as parameters: how many arguments a call accepts, and
      how it renders numbers beyond the safe integers.
    - [Decode] and [Encode]: the two source files, statement by statement.
    - the properties of the codec, proved over these definitions. *)

From Stdlib Require Import ZArith String Ascii List Lia Bool.
From stdpp Require Import base option list numbers gmap.

Local Open Scope Z_scope.

(* ===================================================================== *)
(** ** The host runtime *)
(* ===================================================================== *)

Module Host.

(** A string value is a finite sequence of 16-bit code units. *)
Abbreviation jsstring := (list Z).

(** The code units of an ASCII literal of the source text. *)
Definition lit (s : string) : jsstring :=
  map (fun a => Z.of_N (N_of_ascii a)) (list_ascii_of_string s).

(** What a [throw] carries: [new Error(message)], or the [RangeError] the
    runtime itself raises. *)
Inductive exn : Type :=
  | Error (message : jsstring)
  | RangeError.

(** The outcome of a call: a returned value or a thrown exception. *)
Inductive completion (A : Type) : Type :=
  | Normal (a : A)
  | Throw (e : exn).
Arguments Normal {A} a.
Arguments Throw {A} e.

Definition bind {A B} (c : completion A) (k : A -> completion B) : completion B :=
  match c with
  | Normal a => k a
  | Throw e => Throw e
  end.

Definition is_Normal {A} (c : completion A) : Prop :=
  match c with Normal _ => True | Throw _ => False end.

Definition is_Throw {A} (c : completion A) : Prop :=
  match c with Normal _ => False | Throw _ => True end.

(** *** Numbers to strings *)

(** The digits of a non-negative integer, most significant first. [fuel]
    bounds the number of digits. *)
Fixpoint digits_of (fuel : nat) (radix n : Z) : list Z :=
  match fuel with
  | O => []
  | S fuel' =>
      if n <? radix then [n]
      else digits_of fuel' radix (n / radix) ++ [n mod radix]
  end.

(** The character of a digit: [0-9] then [a-z]. *)
Definition digit_char (d : Z) : Z :=
  if d <? 10 then 48 + d else 87 + d.

(** [Number.prototype.toString(radix)] on a safe integer (at most 2^53 - 1
    in magnitude): an optional minus sign and the digits without leading
    zeros. The sources call it in radix 16, on bytes and on code
    points. *)
Definition Number_toString (radix n : Z) : jsstring :=
  if n <? 0
  then 45 :: map digit_char (digits_of (S (Z.to_nat (Z.log2 (- n)))) radix (- n))
  else map digit_char (digits_of (S (Z.to_nat (Z.log2 n))) radix n).

(** [Number.MAX_SAFE_INTEGER]: up to it every integer is a number of the
    host and is rendered digit by digit. *)
Definition MAX_SAFE_INTEGER : Z := 2 ^ 53 - 1.

(** What the embedding takes from the host as it is: the longest
    argument list a call accepts (a longer one makes the call throw
    [RangeError]; one argument is always accepted), and the rendering of
    the numbers beyond the safe integers, which rounds digits and
    switches to exponent notation. *)
Record host : Type := {
  max_arguments : positive;
  ToString_unsafe : Z -> list Z
}.

(** The rendering [`${n}`] of a number in a template literal. *)
Definition ToString (h : host) (n : Z) : list Z :=
  if Z.abs n <=? MAX_SAFE_INTEGER then Number_toString 10 n
  else ToString_unsafe h n.

(** [String.prototype.toUpperCase] on the ASCII letters, which are the only
    cased characters the sources pass to it (hexadecimal digits). *)
Definition toUpperCase (s : jsstring) : jsstring :=
  map (fun u => if (97 <=? u) && (u <=? 122) then u - 32 else u) s.

(** [String.prototype.padStart(maxLength, fillString)]. *)
Definition padStart (maxLength : nat) (fillString : jsstring) (s : jsstring) : jsstring :=
  if (maxLength <=? length s)%nat then s
  else match fillString with
       | [] => s
       | _ =>
           let fillLen := (maxLength - length s)%nat in
           take fillLen (mjoin (replicate fillLen fillString)) ++ s
       end.

(** *** Strings and code points *)

(** The UTF-16 encoding of one code point, [RangeError] outside
    [0, 0x10FFFF]. *)
Definition fromCodePoint1 (cp : Z) : completion jsstring :=
  if (cp <? 0) || (cp >? 0x10FFFF) then Throw RangeError
  else if cp <=? 0xFFFF then Normal [cp]
  else Normal [(cp - 0x10000) / 0x400 + 0xD800; (cp - 0x10000) mod 0x400 + 0xDC00].

(** The body of [String.fromCodePoint]: the units of its arguments, left
    to right; a hole of the array reads as [undefined], which is not a
    code point. *)
Fixpoint fromCodePoints (elements : list (option Z)) : completion jsstring :=
  match elements with
  | [] => Normal []
  | None :: _ => Throw RangeError
  | Some cp :: rest =>
      bind (fromCodePoint1 cp) (fun units =>
      bind (fromCodePoints rest) (fun s => Normal (units ++ s)))
  end.

(** [String.fromCodePoint(...elements)]: every element of the array is
    one argument of the call, which the host refuses with [RangeError]
    when there are more of them than it accepts. *)
Definition String_fromCodePoint (h : host) (elements : list (option Z))
  : completion jsstring :=
  if (Pos.to_nat (max_arguments h) <? length elements)%nat then Throw RangeError
  else fromCodePoints elements.

(** [String.prototype.codePointAt(position)]; [None] is [undefined]. *)
Definition codePointAt (str : jsstring) (position : nat) : option Z :=
  match str !! position with
  | None => None
  | Some first =>
      if (first <? 0xD800) || (first >? 0xDBFF) then Some first
      else match str !! S position with
           | None => Some first
           | Some second =>
               if (second <? 0xDC00) || (second >? 0xDFFF) then Some first
               else Some ((first - 0xD800) * 0x400 + (second - 0xDC00) + 0x10000)
           end
  end.

(** *** Arrays *)

(** [new Array(length)]: [length] holes. *)
Definition new_Array (length : nat) : list (option Z) := replicate length None.

(** [a[i] = v] on an ordinary array: an index past the end extends the
    array, leaving holes in between. *)
Definition Array_set (a : list (option Z)) (i : nat) (v : Z) : list (option Z) :=
  if (i <? length a)%nat then <[i := Some v]> a
  else a ++ replicate (i - length a) None ++ [Some v].

(** [new Uint8Array(length)]: [length] zero bytes. *)
Definition new_Uint8Array (length : nat) : list Z := replicate length 0.

(** [a[i] = v] on a [Uint8Array]: the value is reduced modulo 256, and an
    index past the end is ignored. *)
Definition Uint8Array_set (a : list Z) (i : nat) (v : Z) : list Z :=
  <[i := v mod 256]> a.

End Host.

Import Host.

(** The two values of the [mode] option. *)
Inductive ErrorMode : Type := replacement | fatal.

(* ===================================================================== *)
(** ** [decode.ts] *)
(* ===================================================================== *)

Module Decode.

(** [interface DecodeOptions { mode?: 'replacement' | 'fatal' }] *)
Record DecodeOptions : Type := { mode : option ErrorMode }.

(** Mapping for the Windows-1252 specific characters (0x80-0x9F); 0x81,
    0x8D, 0x8F, 0x90 and 0x9D are absent. *)
Definition WINDOWS_1252_MAP : gmap Z Z :=
  list_to_map
    [ (0x80, 0x20ac); (0x82, 0x201a); (0x83, 0x0192); (0x84, 0x201e);
      (0x85, 0x2026); (0x86, 0x2020); (0x87, 0x2021); (0x88, 0x02c6);
      (0x89, 0x2030); (0x8a, 0x0160); (0x8b, 0x2039); (0x8c, 0x0152);
      (0x8e, 0x017d); (0x91, 0x2018); (0x92, 0x2019); (0x93, 0x201c);
      (0x94, 0x201d); (0x95, 0x2022); (0x96, 0x2013); (0x97, 0x2014);
      (0x98, 0x02dc); (0x99, 0x2122); (0x9a, 0x0161); (0x9b, 0x203a);
      (0x9c, 0x0153); (0x9e, 0x017e); (0x9f, 0x0178) ].

(** The state the loop of [decode] updates: the array [chars] and the
    write position [charIndex]. *)
Definition state : Type := (list (option Z) * nat)%type.

(** [chars[charIndex++] = v] *)
Definition push (st : state) (v : Z) : state :=
  (Array_set st.1 st.2 v, S st.2).

(** One iteration of the [for] loop, for the element [byte]. *)
Definition step (h : host) (m : ErrorMode) (byte : Z) (st : state) : completion state :=
  if (byte <? 0) || (byte >? 0xff) then
    match m with
    | fatal =>
        Throw (Error (lit "Invalid byte value: " ++ ToString h byte
                        ++ lit " (must be 0-255)"))
    | replacement => Normal (push st 0xfffd)
    end
  else if byte <? 0x80 then Normal (push st byte)
  else if byte <=? 0x9f then
    match WINDOWS_1252_MAP !! byte with
    | Some codePoint => Normal (push st codePoint)
    | None =>
        match m with
        | fatal =>
            Throw (Error (lit "Invalid Windows-1252 byte: 0x"
                            ++ toUpperCase (Number_toString 16 byte)))
        | replacement => Normal (push st 0xfffd)
        end
    end
  else Normal (push st byte).

(** The [for] loop over the elements of [bytes], left to right. *)
Fixpoint loop (h : host) (m : ErrorMode) (bytes : list Z) (st : state)
  : completion state :=
  match bytes with
  | [] => Normal st
  | byte :: rest => bind (step h m byte st) (loop h m rest)
  end.

(** [export function decode(bytes, options = {}): string] *)
Definition decode (h : host) (bytes : list Z) (options : option DecodeOptions)
  : completion jsstring :=
  let options := default {| mode := None |} options in
  let m := default replacement (mode options) in
  let length := length bytes in
  bind (loop h m bytes (new_Array length, O)) (fun st =>
  String_fromCodePoint h (take st.2 st.1)).

End Decode.

(* ===================================================================== *)
(** ** [encode.ts] *)
(* ===================================================================== *)

Module Encode.

(** [interface EncodeOptions { mode?: 'fatal' | 'replacement' }] *)
Record EncodeOptions : Type := { mode : option ErrorMode }.

(** Reverse mapping for encoding (Unicode code point -> Windows-1252
    byte). *)
Definition UNICODE_TO_WINDOWS_1252 : gmap Z Z :=
  list_to_map
    [ (0x20ac, 0x80); (0x201a, 0x82); (0x0192, 0x83); (0x201e, 0x84);
      (0x2026, 0x85); (0x2020, 0x86); (0x2021, 0x87); (0x02c6, 0x88);
      (0x2030, 0x89); (0x0160, 0x8a); (0x2039, 0x8b); (0x0152, 0x8c);
      (0x017d, 0x8e); (0x2018, 0x91); (0x2019, 0x92); (0x201c, 0x93);
      (0x201d, 0x94); (0x2022, 0x95); (0x2013, 0x96); (0x2014, 0x97);
      (0x02dc, 0x98); (0x2122, 0x99); (0x0161, 0x9a); (0x203a, 0x9b);
      (0x0153, 0x9c); (0x017e, 0x9e); (0x0178, 0x9f) ].

(** The state the loop of [encode] updates besides its index [i]: the
    buffer [bytes] and the write position [byteIndex]. *)
Definition state : Type := (list Z * nat)%type.

(** [bytes[byteIndex++] = v] *)
Definition push (st : state) (v : Z) : state :=
  (Uint8Array_set st.1 st.2 v, S st.2).

(** The body of the [for] loop up to the surrogate skip, for the code
    point read at the current index. *)
Definition step (m : ErrorMode) (codePoint : Z) (st : state) : completion state :=
  if codePoint <? 0x80 then Normal (push st codePoint)
  else if (codePoint >=? 0xa0) && (codePoint <=? 0xff) then Normal (push st codePoint)
  else
    match UNICODE_TO_WINDOWS_1252 !! codePoint with
    | Some win1252Byte => Normal (push st win1252Byte)
    | None =>
        match m with
        | fatal =>
            bind (fromCodePoint1 codePoint) (fun rendered =>
            Throw (Error (lit "Character '" ++ rendered ++ lit "' (U+"
                            ++ padStart 4 (lit "0")
                                 (toUpperCase (Number_toString 16 codePoint))
                            ++ lit ") "
                            ++ lit "cannot be encoded in Windows-1252")))
        | replacement => Normal (push st 0x3f)
        end
    end.

(** The [for] loop from index [i] on. Every iteration advances [i], by two
    when the code point read lies above 0xffff; [fuel] bounds the number of
    iterations, and [None] is returned when it does not suffice or when
    [codePointAt] has no unit to read. *)
Fixpoint loop (fuel : nat) (m : ErrorMode) (str : jsstring) (i : nat) (st : state)
  : option (completion state) :=
  if (i <? length str)%nat then
    match fuel with
    | O => None
    | S fuel' =>
        match codePointAt str i with
        | None => None
        | Some codePoint =>
            match step m codePoint st with
            | Throw e => Some (Throw e)
            | Normal st' =>
                let i := if codePoint >? 0xffff then S i else i in
                loop fuel' m str (S i) st'
            end
        end
    end
  else Some (Normal st).

(** [export function encode(str, options = {}): Uint8Array]; the loop is
    given as many iterations as [str] has units. *)
Definition encode (str : jsstring) (options : option EncodeOptions)
  : option (completion (list Z)) :=
  let options := default {| mode := None |} options in
  let m := default fatal (mode options) in
  let length := length str in
  match loop length m str O (new_Uint8Array length, O) with
  | None => None
  | Some (Throw e) => Some (Throw e)
  | Some (Normal st) => Some (Normal (take st.2 st.1))
  end.

End Encode.

(* ===================================================================== *)
(** ** Vocabulary of the properties *)
(* ===================================================================== *)

(** The five bytes of [0x80,0x9F] Windows-1252 leaves undefined. *)
Definition undefined_bytes : list Z := [0x81; 0x8D; 0x8F; 0x90; 0x9D].

(** A string value of the host: every unit fits 16 bits. *)
Definition wf_jsstring (str : jsstring) : Prop :=
  Forall (fun u => 0 <= u <= 0xFFFF) str.

Definition is_high_surrogate (u : Z) : bool := (0xD800 <=? u) && (u <=? 0xDBFF).
Definition is_low_surrogate (u : Z) : bool := (0xDC00 <=? u) && (u <=? 0xDFFF).

(** The code point a surrogate pair stands for. *)
Definition surrogate_pair (hi lo : Z) : Z :=
  (hi - 0xD800) * 0x400 + (lo - 0xDC00) + 0x10000.

(** The code points of a string, as the specification describes the scan:
    a high surrogate followed by a low surrogate is one code point and two
    units are consumed; any other unit, an unpaired surrogate included, is
    a code point by itself. *)
Fixpoint code_points (str : jsstring) : list Z :=
  match str with
  | [] => []
  | first :: rest =>
      match rest with
      | [] => [first]
      | second :: rest' =>
          if is_high_surrogate first && is_low_surrogate second
          then surrogate_pair first second :: code_points rest'
          else first :: code_points rest
      end
  end.

(** Running a fallible function over a list, left to right, stopping at
    the first exception. *)
Fixpoint mapM {A B} (f : A -> completion B) (l : list A) : completion (list B) :=
  match l with
  | [] => Normal []
  | a :: l' => bind (f a) (fun b => bind (mapM f l') (fun bs => Normal (b :: bs)))
  end.

(** The mode [decode] runs in. *)
Definition decode_mode (options : option Decode.DecodeOptions) : ErrorMode :=
  default replacement (Decode.mode (default {| Decode.mode := None |} options)).

(** The mode [encode] runs in. *)
Definition encode_mode (options : option Encode.EncodeOptions) : ErrorMode :=
  default fatal (Encode.mode (default {| Encode.mode := None |} options)).

(** The options object [{ mode: m }] of either function. *)
Definition decode_with (m : ErrorMode) : option Decode.DecodeOptions :=
  Some {| Decode.mode := Some m |}.

Definition encode_with (m : ErrorMode) : option Encode.EncodeOptions :=
  Some {| Encode.mode := Some m |}.

(** A code point of the last row of the encoder's classification: not
    below 0x80, not in [0xA0,0xFF], not a key of the encode table. *)
Definition unencodable (c : Z) : Prop :=
  0x80 <= c /\ ~ (0xA0 <= c <= 0xFF) /\ Encode.UNICODE_TO_WINDOWS_1252 !! c = None.

(** The surrogate [s] is unpaired between [before] and [after]: if it is a
    high surrogate no low surrogate follows it, and if it is a low
    surrogate no high surrogate precedes it. *)
Definition lone_surrogate (before : jsstring) (s : Z) (after : jsstring) : Prop :=
  (is_high_surrogate s = true
   /\ forall v, head after = Some v -> is_low_surrogate v = false)
  \/ (is_low_surrogate s = true
      /\ forall u, last before = Some u -> is_high_surrogate u = false).

(** The code point [Decode.step] stores for one input element, or the
    exception it throws. *)
Definition decoded (h : host) (m : ErrorMode) (byte : Z) : completion Z :=
  bind (Decode.step h m byte ([None], O)) (fun st =>
  match st.1 !! O with
  | Some (Some v) => Normal v
  | _ => Throw RangeError
  end).

(** The byte [Encode.step] stores for one code point, or the exception it
    throws. *)
Definition encoded (m : ErrorMode) (codePoint : Z) : completion Z :=
  bind (Encode.step m codePoint ([0], O)) (fun st =>
  match st.1 !! O with
  | Some v => Normal v
  | None => Throw RangeError
  end).

(** [decode] has a code point for the element: in fatal mode its loop
    body does not throw on it. *)
Definition decodable (h : host) (byte : Z) : bool :=
  match decoded h fatal byte with Normal _ => true | Throw _ => false end.

(** [encode] has a byte for the code point: in fatal mode its loop body
    does not throw on it. *)
Definition encodable (codePoint : Z) : bool :=
  match encoded fatal codePoint with Normal _ => true | Throw _ => false end.

(** The message of the exception [decode] throws for an element outside
    [0,255]. *)
Definition InvalidByteValue (h : host) (byte : Z) : exn :=
  Error (lit "Invalid byte value: " ++ ToString h byte ++ lit " (must be 0-255)").

(** The number of arguments the host accepts in one call. *)
Definition argument_limit (h : host) : nat := Pos.to_nat (max_arguments h).

(** A host for the instances below: calls of up to four arguments, and
    the exponent form of 10^21 for every number beyond the safe
    integers. *)
Definition example_host : host :=
  {| max_arguments := 4; ToString_unsafe := fun _ => lit "1e+21" |}.

(** The message of the exception [decode] throws for an undefined byte of
    [0x80,0x9F]; [hex] is the rendering of the byte. *)
Definition UndefinedWindows1252Byte (hex : jsstring) : exn :=
  Error (lit "Invalid Windows-1252 byte: 0x" ++ hex).

(** The message of the exception [encode] throws for a code point without
    a byte; [rendered] is the character, [hex] the rendering of the code
    point. *)
Definition UnencodableCharacter (rendered hex : jsstring) : exn :=
  Error (lit "Character '" ++ rendered ++ lit "' (U+" ++ hex
           ++ lit ") cannot be encoded in Windows-1252").


Definition upper_hex_digit_value (u : Z) : option Z :=
  if (48 <=? u) && (u <=? 57) then Some (u - 48)
  else if (65 <=? u) && (u <=? 70) then Some (u - 55)
  else None.

Fixpoint parse_digits (value : Z -> option Z) (radix acc : Z) (s : jsstring) : option Z :=
  match s with
  | [] => Some acc
  | u :: s' =>
      match value u with
      | Some d => parse_digits value radix (acc * radix + d) s'
      | None => None
      end
  end.


(** An unsigned numeral of uppercase hexadecimal digits. *)
Definition parse_upper_hex (s : jsstring) : option Z :=
  match s with
  | [] => None
  | _ => parse_digits upper_hex_digit_value 16 0 s
  end.

(** [needle] occurs in [s] as a contiguous run of units. *)
Definition occurs_in (needle s : jsstring) : Prop :=
  exists before after, s = before ++ needle ++ after.

(* ===================================================================== *)
(** ** Facts about the host runtime *)
(* ===================================================================== *)

(** Everything below holds for every host. *)
Section WithHost.
Variable h : host.

Section Completion.
Context {A B : Type}.

Lemma bind_Normal_inv (c : completion A) (k : A -> completion B) (b : B) :
  bind c k = Normal b -> exists a, c = Normal a /\ k a = Normal b.
Proof. destruct c as [a|e]; simpl; [eauto | discriminate]. Qed.

Lemma mapM_length (f : A -> completion B) (l : list A) (bs : list B) :
  mapM f l = Normal bs -> length bs = length l.
Proof.
  revert bs. induction l as [|a l IH]; simpl; intros bs H.
  - by inversion H.
  - destruct (f a) as [b|]; simpl in H; [|discriminate].
    destruct (mapM f l) as [bs'|]; simpl in H; [|discriminate].
    inversion H; subst. simpl. f_equal. by apply IH.
Qed.

Lemma mapM_total (f : A -> completion B) (g : A -> B) (l : list A) :
  (forall a, f a = Normal (g a)) -> mapM f l = Normal (map g l).
Proof.
  intros Hf. induction l as [|a l IH]; simpl; [done|].
  by rewrite Hf, IH.
Qed.

Lemma mapM_app (f : A -> completion B) (l1 l2 : list A) :
  mapM f (l1 ++ l2)
  = bind (mapM f l1) (fun b1 => bind (mapM f l2) (fun b2 => Normal (b1 ++ b2))).
Proof.
  induction l1 as [|a l1 IH]; simpl.
  - by destruct (mapM f l2).
  - destruct (f a); simpl; [|done]. rewrite IH.
    destruct (mapM f l1); simpl; [|done]. by destruct (mapM f l2).
Qed.

Lemma mapM_Forall (f : A -> completion B) (P : B -> Prop) (l : list A) (bs : list B) :
  (forall a b, f a = Normal b -> P b) -> mapM f l = Normal bs -> Forall P bs.
Proof.
  intros Hf. revert bs. induction l as [|a l IH]; simpl; intros bs H.
  - inversion H. constructor.
  - destruct (f a) as [b|] eqn:Hb; simpl in H; [|discriminate].
    destruct (mapM f l) as [bs'|]; simpl in H; [|discriminate].
    inversion H; subst. constructor; eauto.
Qed.
End Completion.

(** The body of [String.fromCodePoint] is the identity on code points of
    the Basic Multilingual Plane. *)
Lemma fromCodePoints_bmp (vs : list Z) :
  Forall (fun v => 0 <= v <= 0xFFFF) vs ->
  fromCodePoints (Some <$> vs) = Normal vs.
Proof.
  induction 1 as [|v vs Hv _ IH]; [done|].
  rewrite fmap_cons. cbn [fromCodePoints]. rewrite IH.
  unfold fromCodePoint1.
  replace (v <? 0) with false by lia.
  replace (v >? 0x10FFFF) with false by lia.
  replace (v <=? 0xFFFF) with true by lia.
  done.
Qed.

(** The call itself returns them unless they are more than the host
    accepts arguments. *)
Lemma String_fromCodePoint_bmp (vs : list Z) :
  Forall (fun v => 0 <= v <= 0xFFFF) vs ->
  String_fromCodePoint h (Some <$> vs)
  = if (argument_limit h <? length vs)%nat then Throw RangeError else Normal vs.
Proof.
  intros Hvs. unfold String_fromCodePoint. rewrite length_fmap.
  fold (argument_limit h).
  destruct (argument_limit h <? length vs)%nat; [done|].
  by apply fromCodePoints_bmp.
Qed.

Section Digits.
Variable radix : Z.
Hypothesis radix_ge_2 : 2 <= radix.

Lemma digits_of_nonempty (fuel : nat) (n : Z) :
  digits_of (S fuel) radix n <> [].
Proof.
  simpl. destruct (n <? radix); [done|].
  intros H. by apply app_eq_nil in H as [_ ?].
Qed.

(** Enough fuel yields the digits of [n]: each below the radix, and
    their value is [n]. *)
Lemma digits_of_spec (fuel : nat) (n : Z) :
  (0 < fuel)%nat -> 0 <= n < 2 ^ Z.of_nat fuel ->
  Forall (fun d => 0 <= d < radix) (digits_of fuel radix n)
  /\ fold_left (fun a d => a * radix + d) (digits_of fuel radix n) 0 = n.
Proof.
  revert n. induction fuel as [|fuel IH]; intros n Hf Hn; [lia|].
  simpl. destruct (n <? radix) eqn:Hlt.
  - apply Z.ltb_lt in Hlt. split; [constructor; [lia|constructor]|simpl; lia].
  - apply Z.ltb_ge in Hlt.
    assert (Hpow : 2 ^ Z.of_nat (S fuel) = 2 * 2 ^ Z.of_nat fuel).
    { rewrite Nat2Z.inj_succ, Z.pow_succ_r; lia. }
    assert (Hq : 0 <= n / radix < 2 ^ Z.of_nat fuel).
    { split; [apply Z.div_pos; lia|].
      apply Z.div_lt_upper_bound; [lia|]. nia. }
    assert (Hfuel : (0 < fuel)%nat).
    { destruct fuel; [|lia]. simpl in Hpow. lia. }
    destruct (IH (n / radix) Hfuel Hq) as [Hds Hv].
    split.
    + apply Forall_app. split; [done|].
      constructor; [|constructor]. apply Z.mod_pos_bound. lia.
    + rewrite fold_left_app. simpl. rewrite Hv.
      pose proof (Z.div_mod n radix ltac:(lia)). lia.
Qed.

Lemma log2_fuel (n : Z) :
  0 <= n -> 0 <= n < 2 ^ Z.of_nat (S (Z.to_nat (Z.log2 n))).
Proof.
  intros Hn. split; [done|].
  rewrite Nat2Z.inj_succ, Z2Nat.id by apply Z.log2_nonneg.
  destruct (Z.eq_dec n 0) as [->|Hne]; [done|].
  apply Z.log2_spec. lia.
Qed.

Lemma parse_digits_map (value : Z -> option Z) (char : Z -> Z) (ds : list Z) (acc : Z) :
  Forall (fun d => value (char d) = Some d) ds ->
  parse_digits value radix acc (map char ds)
  = Some (fold_left (fun a d => a * radix + d) ds acc).
Proof.
  intros H. revert acc. induction H as [|d ds Hd _ IH]; intros acc; simpl; [done|].
  by rewrite Hd, IH.
Qed.

Lemma parse_digits_leading_zeros (value : Z -> option Z) (zero : Z) (k : nat) (s : jsstring) :
  value zero = Some 0 ->
  parse_digits value radix 0 (replicate k zero ++ s) = parse_digits value radix 0 s.
Proof.
  intros Hz. induction k as [|k IH]; simpl; [done|].
  rewrite Hz. by replace (0 * radix + 0) with 0 by lia.
Qed.
End Digits.

Lemma Number_toString_nonneg (radix n : Z) :
  0 <= n ->
  Number_toString radix n = map digit_char (digits_of (S (Z.to_nat (Z.log2 n))) radix n).
Proof. intros Hn. unfold Number_toString. by replace (n <? 0) with false by lia. Qed.


Lemma padStart_zero (k : nat) (s : jsstring) :
  padStart k (lit "0") s = replicate (k - length s) 48 ++ s.
Proof.
  unfold padStart. destruct (k <=? length s)%nat eqn:Hk.
  - apply Nat.leb_le in Hk. by replace (k - length s)%nat with O by lia.
  - change (lit "0") with [48]. f_equal.
    generalize (k - length s)%nat as j. intros j.
    assert (H : forall i, take j (mjoin (replicate i [48])) = replicate (min j i) 48).
    { clear. revert j. intros j i. revert j.
      induction i as [|i IH]; intros j; simpl.
      - rewrite Nat.min_0_r. by destruct j.
      - destruct j as [|j]; simpl; [done|]. by rewrite IH. }
    rewrite H. by rewrite Nat.min_id.
Qed.

(** The rendering of a code point in the message of [encode]: at least
    four uppercase hexadecimal digits that read back as the code point, and
    exactly four below 0x10000. *)
Lemma code_point_hex (c : Z) :
  0 <= c ->
  let hex := padStart 4 (lit "0") (toUpperCase (Number_toString 16 c)) in
  (4 <= length hex)%nat
  /\ parse_upper_hex hex = Some c
  /\ (c <= 0xFFFF -> length hex = 4%nat).
Proof.
  intros Hc hex. subst hex.
  rewrite padStart_zero, Number_toString_nonneg by done.
  set (f := S (Z.to_nat (Z.log2 c))).
  destruct (digits_of_spec 16 ltac:(lia) f c ltac:(lia) (log2_fuel c Hc)) as [Hds Hv].
  pose proof (digits_of_nonempty 16 (Z.to_nat (Z.log2 c)) c) as Hne. fold f in Hne.
  unfold toUpperCase. rewrite map_map.
  set (char := fun d => _).
  assert (Hchar : Forall (fun d => upper_hex_digit_value (char d) = Some d) (digits_of f 16 c)).
  { eapply Forall_impl; [exact Hds|]. intros d Hd. subst char. simpl in Hd |- *.
    unfold upper_hex_digit_value, digit_char.
    destruct (d <? 10) eqn:E.
    - apply Z.ltb_lt in E.
      replace ((97 <=? 48 + d) && (48 + d <=? 122)) with false by lia.
      replace ((48 <=? 48 + d) && (48 + d <=? 57)) with true by lia.
      f_equal. lia.
    - apply Z.ltb_ge in E.
      replace ((97 <=? 87 + d) && (87 + d <=? 122)) with true by lia.
      replace ((48 <=? 87 + d - 32) && (87 + d - 32 <=? 57)) with false by lia.
      replace ((65 <=? 87 + d - 32) && (87 + d - 32 <=? 70)) with true by lia.
      f_equal. lia. }
  split; [|split].
  - rewrite length_app, length_replicate. lia.
  - unfold parse_upper_hex.
    destruct (replicate _ 48 ++ map char _) eqn:E.
    + apply app_eq_nil in E as [_ E]. apply map_eq_nil in E. done.
    + rewrite <- E.
      rewrite (parse_digits_leading_zeros 16) by done.
      rewrite (parse_digits_map 16) by done. by rewrite Hv.
  - intros Hle. rewrite length_app, length_replicate, length_map.
    enough (length (digits_of f 16 c) <= 4)%nat by lia.
    clear -Hc Hle. subst f.
    assert (Hlog : Z.log2 c < 16).
    { destruct (Z.eq_dec c 0) as [->|]; [done|]. apply Z.log2_lt_pow2; lia. }
    assert (Hlen : forall fuel n, 0 <= n < 16 ^ 4 -> (length (digits_of fuel 16 n) <= 4)%nat).
    { intros fuel n Hn.
      destruct fuel as [|f1]; simpl; [lia|].
      destruct (n <? 16) eqn:E1; simpl; [lia|]. apply Z.ltb_ge in E1.
      rewrite length_app. simpl.
      assert (n / 16 < 16 ^ 3) by (apply Z.div_lt_upper_bound; lia).
      destruct f1 as [|f2]; simpl; [lia|].
      destruct (n / 16 <? 16) eqn:E2; simpl; [lia|]. apply Z.ltb_ge in E2.
      rewrite length_app. simpl.
      assert (n / 16 / 16 < 16 ^ 2) by (apply Z.div_lt_upper_bound; lia).
      destruct f2 as [|f3]; simpl; [lia|].
      destruct (n / 16 / 16 <? 16) eqn:E3; simpl; [lia|]. apply Z.ltb_ge in E3.
      rewrite length_app. simpl.
      assert (n / 16 / 16 / 16 < 16) by (apply Z.div_lt_upper_bound; lia).
      destruct f3 as [|f4]; simpl; [lia|].
      replace (n / 16 / 16 / 16 <? 16) with true by lia. simpl. lia. }
    apply Hlen. lia.
Qed.

(* ===================================================================== *)
(** ** The decoder as a map over its input *)
(* ===================================================================== *)

Section DecodeLoop.
Variable m : ErrorMode.

Lemma Array_set_in_range (chars : list (option Z)) (i : nat) (v : Z) :
  (i < length chars)%nat ->
  length (Array_set chars i v) = length chars
  /\ take (S i) (Array_set chars i v) = take i chars ++ [Some v].
Proof.
  intros Hi. unfold Array_set.
  replace (i <? length chars)%nat with true by (symmetry; apply Nat.ltb_lt; lia).
  split; [apply length_insert|].
  rewrite (take_S_r _ _ (Some v)) by (by apply list_lookup_insert_eq).
  by rewrite take_insert_ge.
Qed.

Lemma step_decoded (byte : Z) (st : Decode.state) :
  Decode.step h m byte st = bind (decoded h m byte) (fun v => Normal (Decode.push st v)).
Proof.
  unfold decoded, Decode.step.
  destruct ((byte <? 0) || (byte >? 0xff)); [by destruct m|].
  destruct (byte <? 0x80); [done|].
  destruct (byte <=? 0x9f); [|done].
  destruct (Decode.WINDOWS_1252_MAP !! byte); [done|by destruct m].
Qed.

Lemma loop_decoded (bytes : list Z) (st : Decode.state) :
  (st.2 + length bytes <= length st.1)%nat ->
  match mapM (decoded h m) bytes with
  | Normal vs =>
      exists chars,
        Decode.loop h m bytes st = Normal (chars, (st.2 + length bytes)%nat)
        /\ length chars = length st.1
        /\ take (st.2 + length bytes) chars = take st.2 st.1 ++ (Some <$> vs)
  | Throw e => Decode.loop h m bytes st = Throw e
  end.
Proof.
  revert st. induction bytes as [|byte bytes IH]; intros [chars ci]; simpl; intros Hlen.
  - exists chars. rewrite Nat.add_0_r, app_nil_r. done.
  - rewrite step_decoded. destruct (decoded h m byte) as [v|e]; simpl; [|done].
    destruct (Array_set_in_range chars ci v) as [Hl Ht]; [lia|].
    specialize (IH (Decode.push (chars, ci) v)). simpl in IH.
    rewrite Hl in IH. specialize (IH ltac:(lia)).
    destruct (mapM (decoded h m) bytes) as [vs|e]; simpl; [|done].
    destruct IH as (chars' & Hloop & Hlen' & Htake).
    exists chars'. rewrite Nat.add_succ_r.
    split; [done|]. split; [done|].
    rewrite Htake, Ht. by rewrite <- app_assoc.
Qed.
End DecodeLoop.

Lemma decode_fromCodePoint (bytes : list Z) (options : option Decode.DecodeOptions) :
  Decode.decode h bytes options
  = bind (mapM (decoded h (decode_mode options)) bytes)
         (fun vs => String_fromCodePoint h (Some <$> vs)).
Proof.
  unfold Decode.decode. fold (decode_mode options).
  pose proof (loop_decoded (decode_mode options) bytes (new_Array (length bytes), O)) as H.
  simpl in H. unfold new_Array in H at 1. rewrite length_replicate in H.
  specialize (H ltac:(lia)).
  destruct (mapM (decoded h (decode_mode options)) bytes) as [vs|e]; simpl.
  - destruct H as (chars & -> & _ & Ht). simpl. by rewrite Ht.
  - by rewrite H.
Qed.

(* ===================================================================== *)
(** ** The two tables *)
(* ===================================================================== *)

(** Case analysis on an entry [H : list_to_map [...] !! k = Some v] of a
    table given by its list of pairs. *)
Ltac table_cases H :=
  apply elem_of_list_to_map_2 in H;
  repeat (apply elem_of_cons in H as [H|H]; [injection H as -> ->|]);
  [..|by apply elem_of_nil in H].

(** A property of every integer of a range, checked on each of them. *)
Lemma Z_range_cases (P : Z -> Prop) (lo : Z) (n : nat) :
  Forall P (seqZ lo (Z.of_nat n)) -> forall b, lo <= b < lo + Z.of_nat n -> P b.
Proof.
  intros H b Hb. rewrite Forall_forall in H. apply H.
  apply elem_of_seqZ. lia.
Qed.

(** Reduce a goal [forall b, lo <= b < lo + n -> P b] to the [n] instances
    of [P]. *)
Ltac range_cases lo n :=
  match goal with
  | |- forall b : Z, _ -> @?P b => apply (Z_range_cases P lo n)
  end;
  let l := eval vm_compute in (seqZ lo (Z.of_nat n)) in
  change (seqZ lo (Z.of_nat n)) with l.

Lemma decode_table_range (b c : Z) :
  Decode.WINDOWS_1252_MAP !! b = Some c ->
  0x80 <= b <= 0x9F /\ (b ∉ undefined_bytes) /\ 0x152 <= c <= 0x2122.
Proof.
  intros H. unfold Decode.WINDOWS_1252_MAP in H.
  table_cases H;
    (split; [lia|]; split; [|lia]);
    unfold undefined_bytes; rewrite !not_elem_of_cons; repeat split; try lia;
    apply not_elem_of_nil.
Qed.

Lemma encode_table_range (c b : Z) :
  Encode.UNICODE_TO_WINDOWS_1252 !! c = Some b ->
  0x80 <= b <= 0x9F /\ (b ∉ undefined_bytes) /\ 0x152 <= c <= 0x2122.
Proof.
  intros H. unfold Encode.UNICODE_TO_WINDOWS_1252 in H.
  table_cases H;
    (split; [lia|]; split; [|lia]);
    unfold undefined_bytes; rewrite !not_elem_of_cons; repeat split; try lia;
    apply not_elem_of_nil.
Qed.

Lemma decode_table_encode_table (b c : Z) :
  Decode.WINDOWS_1252_MAP !! b = Some c -> Encode.UNICODE_TO_WINDOWS_1252 !! c = Some b.
Proof.
  intros H. unfold Decode.WINDOWS_1252_MAP in H.
  table_cases H; vm_compute; reflexivity.
Qed.

Lemma encode_table_decode_table (c b : Z) :
  Encode.UNICODE_TO_WINDOWS_1252 !! c = Some b -> Decode.WINDOWS_1252_MAP !! b = Some c.
Proof.
  intros H. unfold Encode.UNICODE_TO_WINDOWS_1252 in H.
  table_cases H; vm_compute; reflexivity.
Qed.

Lemma decode_table_defined (b : Z) :
  0x80 <= b <= 0x9F -> b ∉ undefined_bytes -> is_Some (Decode.WINDOWS_1252_MAP !! b).
Proof.
  intros Hb. revert b Hb.
  cut (forall b, 0x80 <= b < 0x80 + Z.of_nat 32 ->
                 b ∉ undefined_bytes -> is_Some (Decode.WINDOWS_1252_MAP !! b)).
  { intros H b Hb. apply H. lia. }
  range_cases 0x80 32%nat.
  repeat (apply Forall_cons; split;
          [first [ solve [intros _; vm_compute; eauto]
                 | intros Hn; exfalso; apply Hn; unfold undefined_bytes;
                   rewrite !elem_of_cons; lia ]|]).
  apply Forall_nil_2.
Qed.

(* ===================================================================== *)
(** ** The decoder, element by element *)
(* ===================================================================== *)

Lemma decoded_out_of_range (m : ErrorMode) (b : Z) :
  b < 0 \/ b > 255 ->
  decoded h m b = match m with
                | fatal => Throw (InvalidByteValue h b)
                | replacement => Normal 0xFFFD
                end.
Proof.
  intros Hb. unfold decoded, Decode.step.
  replace ((b <? 0) || (b >? 0xff)) with true by lia.
  by destruct m.
Qed.

Lemma decoded_identity (m : ErrorMode) (b : Z) :
  0 <= b <= 0x7F \/ 0xA0 <= b <= 0xFF -> decoded h m b = Normal b.
Proof.
  intros Hb. unfold decoded, Decode.step.
  replace ((b <? 0) || (b >? 0xff)) with false by lia.
  destruct (b <? 0x80) eqn:E; [done|].
  by replace (b <=? 0x9f) with false by lia.
Qed.

Lemma decoded_special (m : ErrorMode) (b : Z) :
  0x80 <= b <= 0x9F ->
  decoded h m b
  = match Decode.WINDOWS_1252_MAP !! b with
    | Some c => Normal c
    | None =>
        match m with
        | fatal => Throw (UndefinedWindows1252Byte (toUpperCase (Number_toString 16 b)))
        | replacement => Normal 0xFFFD
        end
    end.
Proof.
  intros Hb. unfold decoded, Decode.step.
  replace ((b <? 0) || (b >? 0xff)) with false by lia.
  replace (b <? 0x80) with false by lia.
  replace (b <=? 0x9f) with true by lia.
  destruct (Decode.WINDOWS_1252_MAP !! b); [done|by destruct m].
Qed.

(** The three zones and the out-of-range case cover the integers. *)
Lemma byte_zones (b : Z) :
  (b < 0 \/ b > 255) \/ (0 <= b <= 0x7F \/ 0xA0 <= b <= 0xFF) \/ 0x80 <= b <= 0x9F.
Proof. lia. Qed.

(** Whatever [decode] stores is a code point of the Basic Multilingual
    Plane that is not a surrogate. *)
Lemma decoded_bmp (m : ErrorMode) (b v : Z) :
  decoded h m b = Normal v ->
  0 <= v <= 0xFFFF /\ is_high_surrogate v = false /\ is_low_surrogate v = false.
Proof.
  unfold is_high_surrogate, is_low_surrogate.
  destruct (byte_zones b) as [Hb|[Hb|Hb]].
  - rewrite decoded_out_of_range by done. destruct m; [|done].
    intros [= <-]. lia.
  - rewrite decoded_identity by done. intros [= <-]. lia.
  - rewrite decoded_special by done.
    destruct (Decode.WINDOWS_1252_MAP !! b) as [c|] eqn:E.
    + intros [= <-]. apply decode_table_range in E. lia.
    + destruct m; [|done]. intros [= <-]. lia.
Qed.

Lemma decoded_replacement_total (b : Z) :
  exists v, decoded h replacement b = Normal v.
Proof.
  destruct (byte_zones b) as [Hb|[Hb|Hb]].
  - rewrite decoded_out_of_range by done. eauto.
  - rewrite decoded_identity by done. eauto.
  - rewrite decoded_special by done.
    destruct (Decode.WINDOWS_1252_MAP !! b); eauto.
Qed.

(** [decode] is [decoded] applied to every element, followed by the
    final [String.fromCodePoint] call: it yields one unit per code point,
    and throws only when the input has more elements than the host
    accepts arguments. *)
Lemma decode_mapM (bytes : list Z) (options : option Decode.DecodeOptions) :
  Decode.decode h bytes options
  = bind (mapM (decoded h (decode_mode options)) bytes) (fun vs =>
      if (argument_limit h <? length bytes)%nat then Throw RangeError
      else Normal vs).
Proof.
  rewrite decode_fromCodePoint.
  destruct (mapM _ bytes) as [vs|e] eqn:E; simpl; [|done].
  rewrite String_fromCodePoint_bmp, (mapM_length _ _ _ E); [done|].
  eapply (mapM_Forall _ (fun v => 0 <= v <= 0xFFFF)); [|exact E].
  intros b v Hv. by apply decoded_bmp in Hv as [? _].
Qed.

Lemma decode_within_limit (bytes : list Z) (options : option Decode.DecodeOptions) :
  (length bytes <= argument_limit h)%nat ->
  Decode.decode h bytes options = mapM (decoded h (decode_mode options)) bytes.
Proof.
  intros Hlen. rewrite decode_mapM.
  replace (argument_limit h <? length bytes)%nat with false
    by (symmetry; apply Nat.ltb_ge; lia).
  by destruct (mapM _ bytes).
Qed.

Lemma decode_beyond_limit (bytes : list Z) (options : option Decode.DecodeOptions)
    (vs : list Z) :
  (argument_limit h < length bytes)%nat ->
  mapM (decoded h (decode_mode options)) bytes = Normal vs ->
  Decode.decode h bytes options = Throw RangeError.
Proof.
  intros Hlen Hvs. rewrite decode_mapM, Hvs. simpl.
  by replace (argument_limit h <? length bytes)%nat with true
    by (symmetry; apply Nat.ltb_lt; lia).
Qed.

Lemma decode_Normal_inv (bytes : list Z) (options : option Decode.DecodeOptions)
    (text : jsstring) :
  Decode.decode h bytes options = Normal text ->
  mapM (decoded h (decode_mode options)) bytes = Normal text
  /\ (length bytes <= argument_limit h)%nat.
Proof.
  rewrite decode_mapM. destruct (mapM _ bytes) as [vs|e]; simpl; [|done].
  destruct (argument_limit h <? length bytes)%nat eqn:E; [done|].
  apply Nat.ltb_ge in E. by intros [= ->].
Qed.

(** An exception of the loop is the exception of the call. *)
Lemma decode_loop_Throw (bytes : list Z) (options : option Decode.DecodeOptions) (e : exn) :
  mapM (decoded h (decode_mode options)) bytes = Throw e ->
  Decode.decode h bytes options = Throw e.
Proof. intros He. by rewrite decode_mapM, He. Qed.

(** One argument is always accepted. *)
Lemma argument_limit_pos : (1 <= argument_limit h)%nat.
Proof. unfold argument_limit. lia. Qed.

Lemma mapM_replacement_total (bytes : list Z) :
  exists vs, mapM (decoded h replacement) bytes = Normal vs.
Proof.
  induction bytes as [|b bytes [vs IH]]; simpl; [eauto|].
  destruct (decoded_replacement_total b) as [v ->]. simpl. rewrite IH. simpl. eauto.
Qed.

(** A string without high surrogates is the sequence of its own code
    points. *)
Lemma code_points_no_high (s : jsstring) :
  Forall (fun u => is_high_surrogate u = false) s -> code_points s = s.
Proof.
  induction 1 as [|u s Hu _ IH]; [done|].
  cbn [code_points]. rewrite Hu. simpl. destruct s; [done|]. by rewrite IH.
Qed.

Lemma decode_no_surrogates (bytes : list Z) (options : option Decode.DecodeOptions)
    (text : jsstring) :
  Decode.decode h bytes options = Normal text ->
  Forall (fun u => is_high_surrogate u = false) text.
Proof.
  intros Hdec. apply decode_Normal_inv in Hdec as [Hdec _].
  revert Hdec. apply mapM_Forall.
  intros b v Hv. by apply decoded_bmp in Hv as (_ & ? & _).
Qed.

(* ===================================================================== *)
(** ** Properties of [decode] *)
(* ===================================================================== *)

(** C2. [decode] in replacement mode goes through every element without
    throwing and stores one code point for each; the call then returns a
    text of the length of the input, one unit and one code point per
    element, as long as the input has no more elements than the host
    accepts arguments in a call. On a longer input the final
    [String.fromCodePoint(...)] call throws [RangeError], although every
    element was decoded. *)
Theorem decode_replacement_argument_limit (bytes : list Z) :
  (exists chars,
      Decode.loop h replacement bytes (new_Array (length bytes), O)
      = Normal (chars, length bytes)
      /\ length chars = length bytes
      /\ Forall (fun c => is_Some c) chars)
  /\ ((length bytes <= argument_limit h)%nat ->
      exists text,
        Decode.decode h bytes (decode_with replacement) = Normal text
        /\ length text = length bytes
        /\ code_points text = text)
  /\ ((argument_limit h < length bytes)%nat ->
      Decode.decode h bytes (decode_with replacement) = Throw RangeError).
Proof.
  destruct (mapM_replacement_total bytes) as [vs Hvs].
  split; [|split].
  - pose proof (loop_decoded replacement bytes (new_Array (length bytes), O)) as H.
    simpl in H. unfold new_Array in H at 1. rewrite length_replicate in H.
    specialize (H ltac:(lia)). rewrite Hvs in H.
    destruct H as (chars & Hloop & Hlen & Htake).
    unfold new_Array in Hlen. rewrite length_replicate in Hlen.
    exists chars. split; [done|]. split; [done|].
    rewrite take_ge in Htake by lia. rewrite Htake.
    apply Forall_fmap, Forall_true. intros v. simpl. eauto.
  - intros Hlen. exists vs.
    assert (Hdec : Decode.decode h bytes (decode_with replacement) = Normal vs)
      by (by rewrite decode_within_limit).
    split; [done|]. split; [by apply mapM_length in Hvs|].
    apply code_points_no_high. by apply (decode_no_surrogates bytes _ _ Hdec).
  - intros Hlen. by apply (decode_beyond_limit bytes _ vs).
Qed.

(** C4. For every byte [b] of [0x00,0x7F] or [0xA0,0xFF], decoding [[b]]
    returns, in either mode and also without options, the text whose only
    code point is [b]. *)
Theorem decode_zone_identity (b : Z) (options : option Decode.DecodeOptions) :
  0 <= b <= 0x7F \/ 0xA0 <= b <= 0xFF ->
  Decode.decode h [b] options = Normal [b] /\ code_points [b] = [b].
Proof.
  intros Hb. rewrite decode_within_limit by apply argument_limit_pos.
  simpl. by rewrite decoded_identity.
Qed.

(* ===================================================================== *)
(** ** The scan of a string by code point *)
(* ===================================================================== *)

(** Induction over strings two units at a time, as [code_points] recurses. *)
Lemma jsstring_pair_ind (P : jsstring -> Prop) :
  P [] ->
  (forall u, P [u]) ->
  (forall u v s, P s -> P (v :: s) -> P (u :: v :: s)) ->
  forall s, P s.
Proof.
  intros H0 H1 H2 s.
  enough (P s /\ forall u, P (u :: s)) by tauto.
  induction s as [|v s [IH1 IH2]]; split; auto.
Qed.

Lemma code_points_cons2 (u v : Z) (s : jsstring) :
  code_points (u :: v :: s)
  = if is_high_surrogate u && is_low_surrogate v
    then surrogate_pair u v :: code_points s
    else u :: code_points (v :: s).
Proof. reflexivity. Qed.

Lemma code_points_length (s : jsstring) :
  (length (code_points s) <= length s)%nat.
Proof.
  induction s as [|u|u v s IH1 IH2] using jsstring_pair_ind; [done..|].
  cbn [code_points].
  destruct (is_high_surrogate u && is_low_surrogate v); simpl in *; lia.
Qed.

Lemma surrogate_pair_range (hi lo : Z) :
  is_high_surrogate hi = true -> is_low_surrogate lo = true ->
  0x10000 <= surrogate_pair hi lo <= 0x10FFFF.
Proof. unfold is_high_surrogate, is_low_surrogate, surrogate_pair. lia. Qed.

Lemma code_points_wf (s : jsstring) :
  wf_jsstring s -> Forall (fun c => 0 <= c <= 0x10FFFF) (code_points s).
Proof.
  unfold wf_jsstring.
  induction s as [|u|u v s IH1 IH2] using jsstring_pair_ind; intros Hwf.
  - constructor.
  - inversion Hwf; subst. repeat constructor; lia.
  - cbn [code_points].
    inversion Hwf as [|? ? Hu Hwf']; subst. inversion Hwf'; subst.
    destruct (is_high_surrogate u) eqn:Eh, (is_low_surrogate v) eqn:El; simpl;
      constructor; auto; try lia.
    pose proof (surrogate_pair_range u v Eh El). lia.
Qed.

(** Splitting a string between two units does not change its code points
    unless the split falls inside a surrogate pair. *)
Lemma code_points_app (pre post : jsstring) :
  (forall u v, last pre = Some u -> head post = Some v ->
               is_high_surrogate u && is_low_surrogate v = false) ->
  code_points (pre ++ post) = code_points pre ++ code_points post.
Proof.
  induction pre as [|u|u v s IH1 IH2] using jsstring_pair_ind; intros H.
  - done.
  - destruct post as [|w post]; [done|].
    change ([u] ++ w :: post) with (u :: w :: post). rewrite code_points_cons2.
    by rewrite (H u w eq_refl eq_refl).
  - change ((u :: v :: s) ++ post) with (u :: v :: (s ++ post)).
    rewrite !code_points_cons2.
    destruct (is_high_surrogate u && is_low_surrogate v).
    + rewrite IH1; [done|]. intros a b Ha Hb. apply H; [|done].
      destruct s; [done|]. done.
    + change (v :: s ++ post) with ((v :: s) ++ post).
      rewrite IH2; [done|]. intros a b Ha Hb. by apply H.
Qed.

(** What [codePointAt] reads at index [i] is the first code point of the
    rest of the string, and it lies above 0xffff exactly when it took two
    units. *)
Lemma codePointAt_code_points (str : jsstring) (i : nat) :
  wf_jsstring str -> (i < length str)%nat ->
  exists cp,
    codePointAt str i = Some cp
    /\ let i' := if cp >? 0xffff then S i else i in
       (S i' <= length str)%nat
       /\ code_points (drop i str) = cp :: code_points (drop (S i') str).
Proof.
  intros Hwf Hi.
  destruct (lookup_lt_is_Some_2 str i Hi) as [u Hu].
  assert (Hu16 : 0 <= u <= 0xFFFF).
  { unfold wf_jsstring in Hwf. rewrite Forall_lookup in Hwf. by apply (Hwf i). }
  unfold codePointAt. rewrite Hu. rewrite (drop_S _ _ _ Hu).
  destruct (str !! S i) as [v|] eqn:Hv.
  - rewrite (drop_S _ _ _ Hv). rewrite code_points_cons2.
    rewrite <- (drop_S _ _ _ Hv).
    apply lookup_lt_Some in Hv.
    unfold is_high_surrogate at 1.
    destruct ((u <? 0xD800) || (u >? 0xDBFF)) eqn:E1.
    + replace ((0xD800 <=? u) && (u <=? 0xDBFF)) with false by lia. simpl.
      exists u. replace (u >? 0xffff) with false by lia.
      split; [done|]. split; [lia|]. done.
    + replace ((0xD800 <=? u) && (u <=? 0xDBFF)) with true by lia. simpl.
      unfold is_low_surrogate.
      destruct ((v <? 0xDC00) || (v >? 0xDFFF)) eqn:E2.
      * replace ((0xDC00 <=? v) && (v <=? 0xDFFF)) with false by lia.
        exists u. replace (u >? 0xffff) with false by lia.
        split; [done|]. split; [lia|]. done.
      * replace ((0xDC00 <=? v) && (v <=? 0xDFFF)) with true by lia.
        exists ((u - 0xD800) * 0x400 + (v - 0xDC00) + 0x10000).
        replace ((u - 0xD800) * 0x400 + (v - 0xDC00) + 0x10000 >? 0xffff) with true by lia.
        split; [done|]. split; [lia|]. done.
  - apply lookup_ge_None in Hv.
    exists u. replace (u >? 0xffff) with false by lia.
    split; [by destruct ((u <? 0xD800) || (u >? 0xDBFF))|].
    split; [lia|]. by rewrite (drop_ge _ (S i)) by lia.
Qed.

(* ===================================================================== *)
(** ** The encoder, code point by code point *)
(* ===================================================================== *)

Lemma encoded_ascii (m : ErrorMode) (c : Z) :
  0 <= c < 0x80 -> encoded m c = Normal c.
Proof.
  intros Hc. unfold encoded, Encode.step.
  replace (c <? 0x80) with true by lia. simpl.
  by rewrite Z.mod_small by lia.
Qed.

Lemma encoded_latin1 (m : ErrorMode) (c : Z) :
  0xA0 <= c <= 0xFF -> encoded m c = Normal c.
Proof.
  intros Hc. unfold encoded, Encode.step.
  replace (c <? 0x80) with false by lia.
  replace ((c >=? 0xa0) && (c <=? 0xff)) with true by lia. simpl.
  by rewrite Z.mod_small by lia.
Qed.

Lemma encoded_table (m : ErrorMode) (c b : Z) :
  Encode.UNICODE_TO_WINDOWS_1252 !! c = Some b -> encoded m c = Normal b.
Proof.
  intros Hb. pose proof (encode_table_range c b Hb) as (Hr & _ & Hc).
  unfold encoded, Encode.step.
  replace (c <? 0x80) with false by lia.
  replace ((c >=? 0xa0) && (c <=? 0xff)) with false by lia.
  rewrite Hb. simpl. by rewrite Z.mod_small by lia.
Qed.

(** The code points [encode] has no byte for. *)
Lemma encoded_unencodable (m : ErrorMode) (c : Z) :
  0x80 <= c -> ~ (0xA0 <= c <= 0xFF) -> Encode.UNICODE_TO_WINDOWS_1252 !! c = None ->
  encoded m c
  = match m with
    | fatal =>
        bind (fromCodePoint1 c) (fun rendered =>
        Throw (UnencodableCharacter rendered
                 (padStart 4 (lit "0") (toUpperCase (Number_toString 16 c)))))
    | replacement => Normal 0x3F
    end.
Proof.
  intros Hc Hl Ht. unfold encoded, Encode.step.
  replace (c <? 0x80) with false by lia.
  replace ((c >=? 0xa0) && (c <=? 0xff)) with false by lia.
  rewrite Ht. destruct m; [done|].
  by destruct (fromCodePoint1 c).
Qed.

(** Every code point falls in one of the four cases. *)
Lemma code_point_zones (c : Z) :
  0 <= c ->
  0 <= c < 0x80 \/ 0xA0 <= c <= 0xFF
  \/ (exists b, Encode.UNICODE_TO_WINDOWS_1252 !! c = Some b)
  \/ (0x80 <= c /\ ~ (0xA0 <= c <= 0xFF) /\ Encode.UNICODE_TO_WINDOWS_1252 !! c = None).
Proof.
  intros Hc.
  destruct (Encode.UNICODE_TO_WINDOWS_1252 !! c) as [b|] eqn:E; [eauto|].
  destruct (Z_lt_dec c 0x80); [lia|].
  destruct (Z_le_dec 0xA0 c), (Z_le_dec c 0xFF); try lia;
    right; right; right; repeat split; try lia; done.
Qed.

(** Every byte [encode] stores is a defined Windows-1252 byte. *)
Lemma encoded_defined (m : ErrorMode) (c b : Z) :
  0 <= c -> encoded m c = Normal b -> 0 <= b <= 255 /\ b ∉ undefined_bytes.
Proof.
  assert (Hnot : forall x, 0 <= x <= 0x7F \/ 0xA0 <= x <= 0xFF -> x ∉ undefined_bytes).
  { intros x Hx. unfold undefined_bytes. rewrite !not_elem_of_cons.
    repeat split; try lia. apply not_elem_of_nil. }
  intros Hc. destruct (code_point_zones c Hc) as [H|[H|[[b' H]|(H1 & H2 & H3)]]].
  - rewrite encoded_ascii by done. intros [= <-]. split; [lia|]. apply Hnot. lia.
  - rewrite encoded_latin1 by done. intros [= <-]. split; [lia|]. apply Hnot. lia.
  - rewrite (encoded_table m c b') by done. intros [= <-].
    apply encode_table_range in H as (? & ? & _). split; [lia|done].
  - rewrite encoded_unencodable by done. destruct m.
    + intros [= <-]. split; [lia|]. apply Hnot. lia.
    + by destruct (fromCodePoint1 c).
Qed.

Lemma encoded_replacement_total (c : Z) :
  0 <= c -> exists b, encoded replacement c = Normal b.
Proof.
  intros Hc. destruct (code_point_zones c Hc) as [H|[H|[[b' H]|(H1 & H2 & H3)]]].
  - rewrite encoded_ascii by done. eauto.
  - rewrite encoded_latin1 by done. eauto.
  - rewrite (encoded_table _ c b') by done. eauto.
  - rewrite encoded_unencodable by done. eauto.
Qed.

Section EncodeLoop.
Variable m : ErrorMode.

Lemma Uint8Array_set_in_range (bytes : list Z) (i : nat) (v : Z) :
  (i < length bytes)%nat ->
  length (Uint8Array_set bytes i v) = length bytes
  /\ take (S i) (Uint8Array_set bytes i v) = take i bytes ++ [v mod 256].
Proof.
  intros Hi. unfold Uint8Array_set.
  split; [apply length_insert|].
  rewrite (take_S_r _ _ (v mod 256)) by (by apply list_lookup_insert_eq).
  by rewrite take_insert_ge.
Qed.

Lemma step_encoded (codePoint : Z) (st : Encode.state) :
  Encode.step m codePoint st
  = bind (encoded m codePoint) (fun v => Normal (Encode.push st v)).
Proof.
  assert (Hpush : forall v, Encode.push st (v mod 256) = Encode.push st v).
  { intros v. unfold Encode.push, Uint8Array_set. by rewrite Z.mod_mod by lia. }
  unfold encoded, Encode.step.
  destruct (codePoint <? 0x80); [simpl; by rewrite Hpush|].
  destruct ((codePoint >=? 0xa0) && (codePoint <=? 0xff)); [simpl; by rewrite Hpush|].
  destruct (Encode.UNICODE_TO_WINDOWS_1252 !! codePoint); [simpl; by rewrite Hpush|].
  destruct m; [simpl; by rewrite Hpush|].
  by destruct (fromCodePoint1 codePoint).
Qed.

(** What [encoded] returns is already reduced modulo 256. *)
Lemma encoded_mod (c v : Z) : encoded m c = Normal v -> v mod 256 = v.
Proof.
  unfold encoded, Encode.step.
  assert (H : forall x, (x mod 256) mod 256 = x mod 256) by (intros; by rewrite Z.mod_mod by lia).
  destruct (c <? 0x80); [simpl; intros [= <-]; apply H|].
  destruct ((c >=? 0xa0) && (c <=? 0xff)); [simpl; intros [= <-]; apply H|].
  destruct (Encode.UNICODE_TO_WINDOWS_1252 !! c); [simpl; intros [= <-]; apply H|].
  destruct m; [simpl; intros [= <-]; apply H|].
  by destruct (fromCodePoint1 c).
Qed.

(** The loop from index [i] on stores the bytes of the code points of
    the rest of the string, stopping at the first exception; as many
    iterations as there are units left suffice. *)
Lemma loop_encoded (str : jsstring) (fuel i : nat) (st : Encode.state) :
  wf_jsstring str ->
  (length str - i <= fuel)%nat -> (i <= length str)%nat ->
  (st.2 + length (code_points (drop i str)) <= length st.1)%nat ->
  match mapM (encoded m) (code_points (drop i str)) with
  | Normal vs =>
      exists bytes,
        Encode.loop fuel m str i st = Some (Normal (bytes, (st.2 + length vs)%nat))
        /\ length bytes = length st.1
        /\ take (st.2 + length vs) bytes = take st.2 st.1 ++ vs
  | Throw e => Encode.loop fuel m str i st = Some (Throw e)
  end.
Proof.
  intros Hwf. revert i st.
  induction fuel as [|fuel IH]; intros i [bytes bi] Hfuel Hi Hbuf; simpl in Hbuf.
  - assert (i = length str) as -> by lia.
    rewrite drop_all. simpl. rewrite Nat.ltb_irrefl.
    exists bytes. by rewrite Nat.add_0_r, app_nil_r.
  - destruct (decide (i = length str)) as [->|Hne].
    { rewrite drop_all. simpl. rewrite Nat.ltb_irrefl.
      exists bytes. by rewrite Nat.add_0_r, app_nil_r. }
    destruct (codePointAt_code_points str i Hwf ltac:(lia)) as (cp & Hcp & Hi' & Hcps).
    cbn zeta in Hi', Hcps.
    cbn [Encode.loop].
    replace (i <? length str)%nat with true by (symmetry; apply Nat.ltb_lt; lia).
    rewrite Hcp, step_encoded, Hcps. cbn [mapM].
    rewrite Hcps in Hbuf. simpl in Hbuf.
    destruct (encoded m cp) as [v|e] eqn:Hv; simpl; [|done].
    destruct (Uint8Array_set_in_range bytes bi v) as [Hl Ht]; [lia|].
    set (i' := if cp >? 0xffff then S i else i) in *.
    assert (i <= i')%nat by (subst i'; destruct (cp >? 0xffff); lia).
    specialize (IH (S i') (Encode.push (bytes, bi) v)). simpl in IH.
    rewrite Hl in IH. specialize (IH ltac:(lia) ltac:(lia) ltac:(lia)).
    destruct (mapM (encoded m) (code_points (drop (S i') str))) as [vs|e]; simpl; [|done].
    destruct IH as (bytes' & Hloop & Hlen & Htake).
    exists bytes'. rewrite Nat.add_succ_r.
    split; [done|]. split; [done|].
    rewrite Htake, Ht, (encoded_mod cp v Hv). by rewrite <- app_assoc.
Qed.
End EncodeLoop.

(** [encode] is [encoded] applied to every code point of the string; in
    particular the loop always runs to its end within its fuel. *)
Lemma encode_mapM (str : jsstring) (options : option Encode.EncodeOptions) :
  wf_jsstring str ->
  Encode.encode str options
  = Some (mapM (encoded (encode_mode options)) (code_points str)).
Proof.
  intros Hwf. unfold Encode.encode. fold (encode_mode options).
  pose proof (loop_encoded (encode_mode options) str (length str) O
                (new_Uint8Array (length str), O) Hwf ltac:(lia) ltac:(lia)) as H.
  change (drop 0 str) with str in H. simpl in H.
  unfold new_Uint8Array in H at 1. rewrite length_replicate in H.
  specialize (H (code_points_length str)).
  destruct (mapM (encoded (encode_mode options)) (code_points str)) as [vs|e].
  - destruct H as (bytes & -> & _ & Ht). simpl. by rewrite Ht.
  - by rewrite H.
Qed.

(** C3. In fatal mode, [decode] applied to a single byte of [0x80,0x9F]
    throws exactly for the five bytes 0x81, 0x8D, 0x8F, 0x90 and 0x9D and
    returns for every other byte of the range; the message of the
    exception contains [0x] followed by the byte as two uppercase
    hexadecimal digits. *)
Theorem decode_fatal_undefined_bytes (b : Z) :
  0x80 <= b <= 0x9F ->
  let r := Decode.decode h [b] (decode_with fatal) in
  (b ∈ undefined_bytes <-> is_Throw r)
  /\ (b ∉ undefined_bytes <-> is_Normal r)
  /\ (forall e, r = Throw e ->
        exists hex msg,
          e = UndefinedWindows1252Byte hex /\ e = Error msg
          /\ length hex = 2%nat
          /\ parse_upper_hex hex = Some b
          /\ occurs_in (lit "0x" ++ hex) msg).
Proof.
  intros Hb r. subst r. rewrite decode_within_limit by apply argument_limit_pos.
  cbn [mapM]. rewrite decoded_special by done.
  destruct (Decode.WINDOWS_1252_MAP !! b) as [c|] eqn:E.
  - apply decode_table_range in E as (_ & Hdef & _). simpl.
    split; [tauto|]. split; [tauto|]. discriminate.
  - assert (Hundef : b ∈ undefined_bytes).
    { destruct (decide (b ∈ undefined_bytes)) as [|Hn]; [done|].
      destruct (decode_table_defined b Hb Hn) as [c Hc]. congruence. }
    simpl. split; [tauto|]. split; [tauto|].
    intros e [= <-].
    exists (toUpperCase (Number_toString 16 b)), (lit "Invalid Windows-1252 byte: 0x"
             ++ toUpperCase (Number_toString 16 b)).
    split; [done|]. split; [done|].
    unfold undefined_bytes in Hundef. rewrite !elem_of_cons, elem_of_nil in Hundef.
    assert (Hocc : forall hex, occurs_in (lit "0x" ++ hex)
                     (lit "Invalid Windows-1252 byte: 0x" ++ hex)).
    { intros hex. exists (lit "Invalid Windows-1252 byte: "), []. by rewrite app_nil_r. }
    destruct Hundef as [->|[->|[->|[->|[->|[]]]]]];
      (split; [reflexivity|]; split; [reflexivity|]; apply Hocc).
Qed.

Lemma mapM_Throw_elem {A B} (f : A -> completion B) (l : list A) (a : A) :
  a ∈ l -> is_Throw (f a) -> is_Throw (mapM f l).
Proof.
  intros Ha Hf. induction Ha as [a l|a a' l _ IH]; simpl.
  - destruct (f a); [contradiction|exact I].
  - specialize (IH Hf). destruct (f a'); simpl; [|exact I].
    destruct (mapM f l); [contradiction|exact I].
Qed.


Lemma decode_is_Throw_loop (bytes : list Z) (options : option Decode.DecodeOptions) :
  is_Throw (mapM (decoded h (decode_mode options)) bytes) ->
  is_Throw (Decode.decode h bytes options).
Proof.
  destruct (mapM _ bytes) as [vs|e] eqn:E; [done|intros _].
  by rewrite (decode_loop_Throw _ _ e E).
Qed.



(* ===================================================================== *)
(** ** Properties of the tables and of the options *)
(* ===================================================================== *)

(** C8. The two tables are inverse to each other: a pair (byte, code
    point) is in the decode table exactly when (code point, byte) is in
    the encode table; each table has 27 entries; the decode table is
    injective, and its keys are the bytes of [0x80,0x9F] that are not
    among the five undefined ones. *)
Theorem tables_inverse :
  (forall b c, Decode.WINDOWS_1252_MAP !! b = Some c
               <-> Encode.UNICODE_TO_WINDOWS_1252 !! c = Some b)
  /\ size Decode.WINDOWS_1252_MAP = 27%nat
  /\ size Encode.UNICODE_TO_WINDOWS_1252 = 27%nat
  /\ (forall b1 b2 c, Decode.WINDOWS_1252_MAP !! b1 = Some c ->
                      Decode.WINDOWS_1252_MAP !! b2 = Some c -> b1 = b2)
  /\ (forall b, is_Some (Decode.WINDOWS_1252_MAP !! b)
                <-> 0x80 <= b <= 0x9F /\ b ∉ undefined_bytes).
Proof.
  split; [|split; [|split; [|split]]].
  - intros b c. split; [apply decode_table_encode_table|apply encode_table_decode_table].
  - vm_compute. reflexivity.
  - vm_compute. reflexivity.
  - intros b1 b2 c H1 H2.
    apply decode_table_encode_table in H1, H2. congruence.
  - intros b. split.
    + intros [c Hc]. apply decode_table_range in Hc. tauto.
    + intros [Hb Hn]. by apply decode_table_defined.
Qed.

(** C9. Without options, and with an options object that has no [mode],
    [decode] runs in replacement mode and [encode] in fatal mode; the two
    defaults differ, as the undefined byte 0x81 and the unencodable
    U+0100 show. *)
Theorem default_modes :
  (forall bytes,
      Decode.decode h bytes None = Decode.decode h bytes (decode_with replacement)
      /\ Decode.decode h bytes (Some {| Decode.mode := None |})
         = Decode.decode h bytes (decode_with replacement))
  /\ (forall str,
        Encode.encode str None = Encode.encode str (encode_with fatal)
        /\ Encode.encode str (Some {| Encode.mode := None |})
           = Encode.encode str (encode_with fatal))
  /\ decode_mode None = replacement
  /\ encode_mode None = fatal
  /\ Decode.decode h [0x81] None = Normal [0xFFFD]
  /\ is_Throw (Decode.decode h [0x81] (decode_with fatal))
  /\ (exists e, Encode.encode [0x100] None = Some (Throw e))
  /\ Encode.encode [0x100] (encode_with replacement) = Some (Normal [0x3F]).
Proof.
  split; [|split; [|split; [|split; [|split; [|split; [|split]]]]]].
  - intros bytes. split; reflexivity.
  - intros str. split; reflexivity.
  - reflexivity.
  - reflexivity.
  - rewrite decode_within_limit by apply argument_limit_pos. reflexivity.
  - apply decode_is_Throw_loop. vm_compute. exact I.
  - eexists. vm_compute. reflexivity.
  - vm_compute. reflexivity.
Qed.

(* ===================================================================== *)
(** ** Round trips *)
(* ===================================================================== *)

Lemma mapM_Forall_in {A B} (f : A -> completion B) (Q : A -> Prop) (P : B -> Prop)
    (l : list A) (bs : list B) :
  Forall Q l -> (forall a b, Q a -> f a = Normal b -> P b) ->
  mapM f l = Normal bs -> Forall P bs.
Proof.
  intros HQ Hf. revert bs. induction HQ as [|a l Ha _ IH]; simpl; intros bs H.
  - inversion H. constructor.
  - destruct (f a) as [b|] eqn:Hb; simpl in H; [|discriminate].
    destruct (mapM f l) as [bs'|]; simpl in H; [|discriminate].
    inversion H; subst. constructor; eauto.
Qed.

Lemma mapM_total_in {A B} (f : A -> completion B) (Q : A -> Prop) (l : list A) :
  Forall Q l -> (forall a, Q a -> exists b, f a = Normal b) ->
  exists bs, mapM f l = Normal bs.
Proof.
  intros HQ Hf. induction HQ as [|a l Ha _ [bs IH]]; simpl; [eauto|].
  destruct (Hf a Ha) as [b ->]. rewrite IH. simpl. eauto.
Qed.

(** A defined byte decodes, in either mode, to a code point that encodes,
    in either mode, back to the byte. *)
Lemma decoded_encoded (md me : ErrorMode) (b : Z) :
  0 <= b <= 255 -> b ∉ undefined_bytes ->
  exists v, decoded h md b = Normal v /\ encoded me v = Normal b.
Proof.
  intros Hb Hn.
  destruct (byte_zones b) as [H|[H|H]]; [lia| |].
  - exists b. rewrite decoded_identity by done. split; [done|].
    destruct H; [apply encoded_ascii|apply encoded_latin1]; lia.
  - destruct (decode_table_defined b H Hn) as [c Hc].
    exists c. rewrite decoded_special, Hc by done. split; [done|].
    apply encoded_table. by apply decode_table_encode_table.
Qed.

Lemma mapM_decoded_encoded (md me : ErrorMode) (bytes : list Z) :
  Forall (fun b => 0 <= b <= 255 /\ b ∉ undefined_bytes) bytes ->
  exists vs, mapM (decoded h md) bytes = Normal vs /\ mapM (encoded me) vs = Normal bytes.
Proof.
  induction 1 as [|b bytes [Hb Hn] _ (vs & H1 & H2)]; simpl; [by exists []|].
  destruct (decoded_encoded md me b Hb Hn) as (v & Hv & Hv').
  exists (v :: vs). rewrite Hv, H1. simpl. by rewrite Hv', H2.
Qed.

Lemma decode_wf (bytes : list Z) (options : option Decode.DecodeOptions) (text : jsstring) :
  Decode.decode h bytes options = Normal text -> wf_jsstring text.
Proof.
  intros Hdec. apply decode_Normal_inv in Hdec as [Hdec _].
  revert Hdec. apply mapM_Forall.
  intros b v Hv. by apply decoded_bmp in Hv as [? _].
Qed.

(** What the loop of [decode] stores for a sequence of defined bytes
    encodes back to the sequence, whatever the two modes. *)
Lemma round_trip_loop (md me : ErrorMode) (bytes : list Z) :
  Forall (fun b => 0 <= b <= 255 /\ b ∉ undefined_bytes) bytes ->
  exists vs,
    mapM (decoded h md) bytes = Normal vs
    /\ Encode.encode vs (encode_with me) = Some (Normal bytes).
Proof.
  intros Hdef.
  destruct (mapM_decoded_encoded md me bytes Hdef) as (vs & H1 & H2).
  exists vs. split; [done|].
  assert (Hbmp : Forall (fun v => 0 <= v <= 0xFFFF /\ is_high_surrogate v = false) vs).
  { revert H1. apply mapM_Forall. intros b v Hv. apply decoded_bmp in Hv. tauto. }
  rewrite encode_mapM.
  - rewrite code_points_no_high; [by f_equal|].
    eapply Forall_impl; [exact Hbmp|]. by intros v [_ ?].
  - unfold wf_jsstring. eapply Forall_impl; [exact Hbmp|]. by intros v [? _].
Qed.

(** A sequence of defined bytes the host accepts as an argument list
    survives decoding and encoding again, whatever the two modes. *)
Lemma round_trip_bytes (md me : ErrorMode) (bytes : list Z) :
  Forall (fun b => 0 <= b <= 255 /\ b ∉ undefined_bytes) bytes ->
  (length bytes <= argument_limit h)%nat ->
  exists text,
    Decode.decode h bytes (decode_with md) = Normal text
    /\ Encode.encode text (encode_with me) = Some (Normal bytes).
Proof.
  intros Hdef Hlen.
  destruct (round_trip_loop md me bytes Hdef) as (vs & H1 & H2).
  exists vs. split; [|done]. by rewrite decode_within_limit.
Qed.

(** C1. For every byte [b] of [0,255] other than the five undefined ones,
    [decode] in replacement mode returns some text for [[b]], and [encode],
    in either mode, returns [[b]] for that text. *)
Theorem round_trip_byte (b : Z) (m : ErrorMode) :
  0 <= b <= 255 -> b ∉ undefined_bytes ->
  exists text,
    Decode.decode h [b] (decode_with replacement) = Normal text
    /\ Encode.encode text (encode_with m) = Some (Normal [b]).
Proof.
  intros Hb Hn. apply round_trip_bytes.
  - apply Forall_cons. split; [done|apply Forall_nil_2].
  - apply argument_limit_pos.
Qed.

(** C10. For every string: the bytes [encode] returns, in either mode,
    lie in [0,255] and are none of the five undefined bytes, and [encode]
    in replacement mode always returns. On what it returned, the loop of
    [decode] in fatal mode throws on no element, and [decode] returns as
    long as the bytes are no more than the host accepts arguments in a
    call; on a longer output the final [String.fromCodePoint(...)] call
    throws [RangeError]. *)
Theorem encode_output_defined (str : jsstring) :
  wf_jsstring str ->
  (forall m bytes,
      Encode.encode str (encode_with m) = Some (Normal bytes) ->
      Forall (fun b => 0 <= b <= 255 /\ b ∉ undefined_bytes) bytes)
  /\ (exists bytes,
        Encode.encode str (encode_with replacement) = Some (Normal bytes)
        /\ (exists chars,
              Decode.loop h fatal bytes (new_Array (length bytes), O)
              = Normal (chars, length bytes))
        /\ ((length bytes <= argument_limit h)%nat ->
            exists text, Decode.decode h bytes (decode_with fatal) = Normal text)
        /\ ((argument_limit h < length bytes)%nat ->
            Decode.decode h bytes (decode_with fatal) = Throw RangeError)).
Proof.
  intros Hwf.
  pose proof (code_points_wf str Hwf) as Hcps.
  assert (Hdef : forall m bytes,
             Encode.encode str (encode_with m) = Some (Normal bytes) ->
             Forall (fun b => 0 <= b <= 255 /\ b ∉ undefined_bytes) bytes).
  { intros m bytes. rewrite encode_mapM by done. intros [= H].
    eapply mapM_Forall_in; [exact Hcps| |exact H].
    intros c b Hc. simpl in Hc. apply encoded_defined. lia. }
  split; [exact Hdef|].
  destruct (mapM_total_in (encoded replacement) _ _ Hcps) as [bytes Hbytes].
  { intros c Hc. simpl in Hc. apply encoded_replacement_total. lia. }
  assert (Henc : Encode.encode str (encode_with replacement) = Some (Normal bytes)).
  { rewrite encode_mapM by done. by f_equal. }
  destruct (round_trip_loop fatal fatal bytes (Hdef _ _ Henc)) as (vs & Hvs & _).
  exists bytes. split; [done|]. split; [|split].
  - pose proof (loop_decoded fatal bytes (new_Array (length bytes), O)) as H.
    cbn [fst snd] in H. unfold new_Array in H at 1. rewrite length_replicate in H.
    specialize (H ltac:(lia)). rewrite Hvs in H.
    destruct H as (chars & Hloop & _). by exists chars.
  - intros Hlen. exists vs. by rewrite decode_within_limit.
  - intros Hlen. by apply (decode_beyond_limit bytes _ vs).
Qed.

(* ===================================================================== *)
(** ** Code points without a byte *)
(* ===================================================================== *)

Lemma surrogate_unencodable (c : Z) :
  0x80 <= c <= 0x9F \/ 0xD800 <= c <= 0xDFFF
  \/ (0x100 <= c /\ Encode.UNICODE_TO_WINDOWS_1252 !! c = None) ->
  unencodable c.
Proof.
  intros Hc. unfold unencodable.
  destruct (Encode.UNICODE_TO_WINDOWS_1252 !! c) as [b|] eqn:E.
  - apply encode_table_range in E. destruct Hc as [?|[?|[_ ?]]]; [lia|lia|done].
  - repeat split; try lia; done.
Qed.

Lemma encodable_encoded (m : ErrorMode) (c : Z) :
  0 <= c -> ~ unencodable c -> exists b, encoded m c = Normal b.
Proof.
  intros Hc Hn. destruct (code_point_zones c Hc) as [H|[H|[[b H]|H]]].
  - rewrite encoded_ascii by done. eauto.
  - rewrite encoded_latin1 by done. eauto.
  - rewrite (encoded_table m c b) by done. eauto.
  - by destruct Hn.
Qed.

Lemma encoded_replacement_unencodable (c : Z) :
  unencodable c -> encoded replacement c = Normal 0x3F.
Proof. intros (H1 & H2 & H3). by rewrite encoded_unencodable. Qed.

(** The rendering of a code point is a well-formed string whose only
    code point is that code point. *)
Lemma code_points_fromCodePoint1 (c : Z) :
  0 <= c <= 0x10FFFF ->
  exists rendered,
    fromCodePoint1 c = Normal rendered
    /\ wf_jsstring rendered
    /\ code_points rendered = [c].
Proof.
  intros Hc. unfold fromCodePoint1.
  replace ((c <? 0) || (c >? 0x10FFFF)) with false by lia.
  destruct (c <=? 0xFFFF) eqn:E.
  - exists [c]. split; [done|]. split; [|done].
    unfold wf_jsstring. repeat constructor; lia.
  - eexists. split; [reflexivity|].
    assert (Hq : 0 <= (c - 0x10000) / 0x400 < 0x400).
    { split; [apply Z.div_pos; lia|apply Z.div_lt_upper_bound; lia]. }
    pose proof (Z.mod_pos_bound (c - 0x10000) 0x400 ltac:(lia)) as Hr.
    pose proof (Z.div_mod (c - 0x10000) 0x400 ltac:(lia)) as Hdm.
    split.
    + unfold wf_jsstring. repeat constructor; lia.
    + rewrite code_points_cons2. unfold is_high_surrogate, is_low_surrogate.
      replace ((0xD800 <=? (c - 0x10000) / 0x400 + 0xD800)
               && ((c - 0x10000) / 0x400 + 0xD800 <=? 0xDBFF)) with true by lia.
      replace ((0xDC00 <=? (c - 0x10000) mod 0x400 + 0xDC00)
               && ((c - 0x10000) mod 0x400 + 0xDC00 <=? 0xDFFF)) with true by lia.
      simpl. unfold surrogate_pair. f_equal. lia.
Qed.

(** In fatal mode the exception [encode] throws is the one of the first
    code point without a byte. *)
Lemma encode_fatal_first_unencodable (str : jsstring) (cps1 cps2 : list Z) (c : Z) :
  wf_jsstring str -> code_points str = cps1 ++ c :: cps2 ->
  Forall (fun c' => ~ unencodable c') cps1 -> unencodable c ->
  exists rendered,
    fromCodePoint1 c = Normal rendered
    /\ Encode.encode str (encode_with fatal)
       = Some (Throw (UnencodableCharacter rendered
                        (padStart 4 (lit "0") (toUpperCase (Number_toString 16 c))))).
Proof.
  intros Hwf Hcps Hpre Hc.
  pose proof (code_points_wf str Hwf) as Hrange. rewrite Hcps in Hrange.
  apply Forall_app in Hrange as [Hr1 Hr2].
  inversion Hr2 as [|? ? Hrc _]; subst.
  destruct (code_points_fromCodePoint1 c Hrc) as (rendered & Hrend & _ & _).
  exists rendered. split; [done|].
  rewrite encode_mapM, Hcps, mapM_app by done.
  change (encode_mode (encode_with fatal)) with fatal.
  destruct (mapM_total_in (encoded fatal) (fun c' => 0 <= c' /\ ~ unencodable c') cps1)
    as [b1 ->].
  { rewrite Forall_forall in Hr1, Hpre. apply Forall_forall. intros x Hx.
    specialize (Hr1 x Hx). specialize (Hpre x Hx). simpl in *. split; [lia|done]. }
  { intros x [Hx1 Hx2]. by apply encodable_encoded. }
  cbn [bind mapM]. destruct Hc as (H1 & H2 & H3).
  rewrite encoded_unencodable, Hrend by done. reflexivity.
Qed.

(** In replacement mode a code point without a byte yields the byte 0x3F
    at its position. *)
Lemma encode_replacement_unencodable (str : jsstring) (cps1 cps2 : list Z) (c : Z) :
  wf_jsstring str -> code_points str = cps1 ++ c :: cps2 -> unencodable c ->
  exists b1 b2,
    mapM (encoded replacement) cps1 = Normal b1
    /\ mapM (encoded replacement) cps2 = Normal b2
    /\ Encode.encode str (encode_with replacement) = Some (Normal (b1 ++ 0x3F :: b2)).
Proof.
  intros Hwf Hcps Hc.
  pose proof (code_points_wf str Hwf) as Hrange. rewrite Hcps in Hrange.
  apply Forall_app in Hrange as [Hr1 Hr2].
  inversion Hr2 as [|? ? Hrc Hr2']; subst.
  destruct (mapM_total_in (encoded replacement) _ cps1 Hr1) as [b1 Hb1].
  { intros x Hx. simpl in Hx. apply encoded_replacement_total. lia. }
  destruct (mapM_total_in (encoded replacement) _ cps2 Hr2') as [b2 Hb2].
  { intros x Hx. simpl in Hx. apply encoded_replacement_total. lia. }
  exists b1, b2. split; [done|]. split; [done|].
  rewrite encode_mapM, Hcps, mapM_app by done.
  change (encode_mode (encode_with replacement)) with replacement.
  rewrite Hb1. cbn [bind mapM].
  by rewrite encoded_replacement_unencodable, Hb2.
Qed.

(** C7. The code points of [0x80,0x9F], the surrogates and the code
    points from 0x100 on that are no key of the encode table are
    unencodable. For every unencodable code point [c]: in fatal mode
    [encode] throws on any string containing [c], and when [c] is the
    first unencodable code point of the string the message contains the
    rendered character and [U+] followed by [c] in uppercase hexadecimal,
    padded with zeros to at least four digits; in replacement mode
    [encode] returns and the byte at the position of [c] is 0x3F. *)
Theorem encode_unencodable_code_point :
  (forall c, 0x80 <= c <= 0x9F \/ 0xD800 <= c <= 0xDFFF
             \/ (0x100 <= c /\ Encode.UNICODE_TO_WINDOWS_1252 !! c = None) ->
             unencodable c)
  /\ (forall c, unencodable c -> c <= 0x10FFFF ->
        exists rendered hex msg,
          fromCodePoint1 c = Normal rendered
          /\ code_points rendered = [c]
          /\ UnencodableCharacter rendered hex = Error msg
          /\ occurs_in rendered msg
          /\ occurs_in (lit "U+" ++ hex) msg
          /\ (4 <= length hex)%nat
          /\ parse_upper_hex hex = Some c
          /\ Encode.encode rendered (encode_with fatal)
             = Some (Throw (UnencodableCharacter rendered hex))
          /\ Encode.encode rendered (encode_with replacement) = Some (Normal [0x3F])
          /\ (forall str cps1 cps2,
                wf_jsstring str -> code_points str = cps1 ++ c :: cps2 ->
                (exists e, Encode.encode str (encode_with fatal) = Some (Throw e))
                /\ (Forall (fun c' => ~ unencodable c') cps1 ->
                    Encode.encode str (encode_with fatal)
                    = Some (Throw (UnencodableCharacter rendered hex)))
                /\ (exists b1 b2,
                      Encode.encode str (encode_with replacement)
                      = Some (Normal (b1 ++ 0x3F :: b2))
                      /\ length b1 = length cps1 /\ length b2 = length cps2))).
Proof.
  split; [exact surrogate_unencodable|].
  intros c Hc Hmax.
  assert (Hrange : 0 <= c <= 0x10FFFF) by (destruct Hc; lia).
  destruct (code_points_fromCodePoint1 c Hrange) as (rendered & Hrend & Hwf & Hcps).
  set (hex := padStart 4 (lit "0") (toUpperCase (Number_toString 16 c))).
  destruct (code_point_hex c ltac:(lia)) as (Hlen & Hparse & _). fold hex in Hlen, Hparse.
  exists rendered, hex, (lit "Character '" ++ rendered ++ lit "' (U+" ++ hex
                           ++ lit ") cannot be encoded in Windows-1252").
  assert (Hfatal : forall str cps1 cps2,
             wf_jsstring str -> code_points str = cps1 ++ c :: cps2 ->
             Forall (fun c' => ~ unencodable c') cps1 ->
             Encode.encode str (encode_with fatal)
             = Some (Throw (UnencodableCharacter rendered hex))).
  { intros str cps1 cps2 Hs Hsplit Hpre.
    destruct (encode_fatal_first_unencodable str cps1 cps2 c Hs Hsplit Hpre Hc)
      as (r & Hr & ->).
    rewrite Hrend in Hr. by injection Hr as <-. }
  assert (Hrepl : forall str cps1 cps2,
             wf_jsstring str -> code_points str = cps1 ++ c :: cps2 ->
             exists b1 b2,
               Encode.encode str (encode_with replacement)
               = Some (Normal (b1 ++ 0x3F :: b2))
               /\ length b1 = length cps1 /\ length b2 = length cps2).
  { intros str cps1 cps2 Hs Hsplit.
    destruct (encode_replacement_unencodable str cps1 cps2 c Hs Hsplit Hc)
      as (b1 & b2 & H1 & H2 & H3).
    exists b1, b2. split; [done|].
    split; eapply mapM_length; eassumption. }
  split; [done|]. split; [done|]. split; [done|].
  split; [by exists (lit "Character '"),
                    (lit "' (U+" ++ hex ++ lit ") cannot be encoded in Windows-1252")|].
  split.
  { exists (lit "Character '" ++ rendered ++ lit "' ("),
           (lit ") cannot be encoded in Windows-1252").
    rewrite <- !app_assoc. reflexivity. }
  split; [done|]. split; [done|].
  split; [by apply (Hfatal rendered [] [])|].
  split.
  { destruct (Hrepl rendered [] [] Hwf Hcps) as (b1 & b2 & H & H1 & H2).
    destruct b1; [|discriminate]. destruct b2; [|discriminate]. done. }
  intros str cps1 cps2 Hs Hsplit. split; [|split].
  - pose proof (mapM_Throw_elem (encoded fatal) (code_points str) c) as Hthrow.
    rewrite encode_mapM by done.
    change (encode_mode (encode_with fatal)) with fatal.
    destruct (mapM (encoded fatal) (code_points str)) as [bs|e]; [|eauto].
    exfalso. apply Hthrow.
    + rewrite Hsplit. apply elem_of_app. right. apply elem_of_cons. by left.
    + destruct Hc as (H1 & H2 & H3). rewrite encoded_unencodable, Hrend by done.
      exact I.
  - by apply (Hfatal str cps1 cps2).
  - by apply Hrepl.
Qed.

(* ===================================================================== *)
(** ** Surrogates *)
(* ===================================================================== *)

Lemma high_not_low (s : Z) : is_high_surrogate s = true -> is_low_surrogate s = false.
Proof. unfold is_high_surrogate, is_low_surrogate. lia. Qed.

Lemma low_not_high (s : Z) : is_low_surrogate s = true -> is_high_surrogate s = false.
Proof. unfold is_high_surrogate, is_low_surrogate. lia. Qed.

(** A surrogate pair is one code point wherever it stands. *)
Lemma code_points_pair (before after : jsstring) (hi lo : Z) :
  is_high_surrogate hi = true -> is_low_surrogate lo = true ->
  code_points (before ++ hi :: lo :: after)
  = code_points before ++ surrogate_pair hi lo :: code_points after.
Proof.
  intros Hhi Hlo. rewrite code_points_app.
  - by rewrite code_points_cons2, Hhi, Hlo.
  - intros u v _ [= <-]. rewrite (high_not_low _ Hhi). apply andb_false_r.
Qed.

(** An unpaired surrogate is a code point by itself. *)
Lemma code_points_lone (before after : jsstring) (s : Z) :
  lone_surrogate before s after ->
  code_points (before ++ s :: after) = code_points before ++ s :: code_points after.
Proof.
  intros [[Hs Hafter]|[Hs Hbefore]].
  - rewrite code_points_app.
    + f_equal. destruct after as [|v after]; [done|].
      by rewrite code_points_cons2, (Hafter v eq_refl), andb_false_r.
    + intros u v _ [= <-]. rewrite (high_not_low _ Hs). apply andb_false_r.
  - rewrite code_points_app.
    + f_equal. destruct after as [|v after]; [done|].
      by rewrite code_points_cons2, (low_not_high _ Hs).
    + intros u v Hu _. by rewrite (Hbefore u Hu).
Qed.

Lemma lone_surrogate_unencodable (before after : jsstring) (s : Z) :
  lone_surrogate before s after -> unencodable s /\ 0xD800 <= s <= 0xDFFF.
Proof.
  intros Hs.
  assert (0xD800 <= s <= 0xDFFF).
  { destruct Hs as [[Hs _]|[Hs _]]; unfold is_high_surrogate, is_low_surrogate in Hs; lia. }
  split; [|done]. apply surrogate_unencodable. lia.
Qed.

(** C5. [encode] goes through its input by code point. The pair of
    units of U+1F60A yields, in replacement mode, the single byte 0x3F.
    For every string, [encode] in replacement mode returns as many bytes
    as the string has code points, a surrogate pair counting once. A
    surrogate pair anywhere in a string is one step, yielding one byte
    0x3F between the bytes of what precedes and of what follows it. An
    unpaired surrogate is one code point taking one unit: in replacement
    mode it yields one byte 0x3F between the bytes of what precedes and
    of what follows it, and in fatal mode, when what precedes it can be
    encoded, it yields the exception for that surrogate. *)
Theorem encode_by_code_point :
  Encode.encode [0xD83D; 0xDE0A] (encode_with replacement) = Some (Normal [0x3F])
  /\ surrogate_pair 0xD83D 0xDE0A = 0x1F60A
  /\ (forall str,
        wf_jsstring str ->
        exists bytes,
          Encode.encode str (encode_with replacement) = Some (Normal bytes)
          /\ length bytes = length (code_points str))
  /\ (forall before hi lo after,
        wf_jsstring (before ++ hi :: lo :: after) ->
        is_high_surrogate hi = true -> is_low_surrogate lo = true ->
        code_points (before ++ hi :: lo :: after)
        = code_points before ++ surrogate_pair hi lo :: code_points after
        /\ exists b1 b2,
             Encode.encode before (encode_with replacement) = Some (Normal b1)
             /\ Encode.encode after (encode_with replacement) = Some (Normal b2)
             /\ Encode.encode (before ++ hi :: lo :: after) (encode_with replacement)
                = Some (Normal (b1 ++ 0x3F :: b2)))
  /\ (forall before s after,
        wf_jsstring (before ++ s :: after) ->
        lone_surrogate before s after ->
        code_points (before ++ s :: after)
        = code_points before ++ s :: code_points after
        /\ (exists b1 b2,
              Encode.encode before (encode_with replacement) = Some (Normal b1)
              /\ Encode.encode after (encode_with replacement) = Some (Normal b2)
              /\ Encode.encode (before ++ s :: after) (encode_with replacement)
                 = Some (Normal (b1 ++ 0x3F :: b2)))
        /\ (forall b1,
              Encode.encode before (encode_with fatal) = Some (Normal b1) ->
              Encode.encode (before ++ s :: after) (encode_with fatal)
              = Some (Throw (UnencodableCharacter [s]
                               (padStart 4 (lit "0")
                                  (toUpperCase (Number_toString 16 s))))))).
Proof.
  assert (Hrepl : forall str before after c,
             wf_jsstring str -> wf_jsstring before -> wf_jsstring after ->
             code_points str = code_points before ++ c :: code_points after ->
             unencodable c ->
             exists b1 b2,
               Encode.encode before (encode_with replacement) = Some (Normal b1)
               /\ Encode.encode after (encode_with replacement) = Some (Normal b2)
               /\ Encode.encode str (encode_with replacement)
                  = Some (Normal (b1 ++ 0x3F :: b2))).
  { intros str before after c Hs Hb Ha Hsplit Hc.
    destruct (encode_replacement_unencodable str _ _ c Hs Hsplit Hc)
      as (b1 & b2 & H1 & H2 & H3).
    exists b1, b2. rewrite !encode_mapM by done.
    change (encode_mode (encode_with replacement)) with replacement.
    rewrite H1, H2. split; [done|]. split; [done|].
    by rewrite <- H3, encode_mapM by done. }
  split; [vm_compute; reflexivity|]. split; [reflexivity|].
  split; [|split].
  - intros str Hwf.
    destruct (mapM_total_in (encoded replacement) _ _ (code_points_wf str Hwf))
      as [bytes Hbytes].
    { intros c Hc. simpl in Hc. apply encoded_replacement_total. lia. }
    exists bytes. rewrite encode_mapM by done.
    split; [by f_equal|]. by apply mapM_length in Hbytes.
  - intros before hi lo after Hwf Hhi Hlo.
    pose proof (code_points_pair before after hi lo Hhi Hlo) as Hsplit.
    split; [done|].
    pose proof Hwf as Hwf'. unfold wf_jsstring in Hwf'.
    apply Forall_app in Hwf' as [Hb Ha].
    apply Forall_cons in Ha as [_ Ha]. apply Forall_cons in Ha as [_ Ha].
    apply (Hrepl _ _ _ _ Hwf Hb Ha Hsplit).
    apply surrogate_unencodable. right. right.
    pose proof (surrogate_pair_range hi lo Hhi Hlo) as Hr.
    split; [lia|].
    destruct (Encode.UNICODE_TO_WINDOWS_1252 !! surrogate_pair hi lo) eqn:E; [|done].
    apply encode_table_range in E. lia.
  - intros before s after Hwf Hlone.
    pose proof (code_points_lone before after s Hlone) as Hsplit.
    destruct (lone_surrogate_unencodable before after s Hlone) as [Hun Hrange].
    pose proof Hwf as Hwf'. unfold wf_jsstring in Hwf'.
    apply Forall_app in Hwf' as [Hb Ha]. apply Forall_cons in Ha as [_ Ha].
    split; [done|]. split; [by apply (Hrepl _ _ _ _ Hwf Hb Ha Hsplit)|].
    intros b1. rewrite (encode_mapM before) by done.
    change (encode_mode (encode_with fatal)) with fatal. intros [= Hb1].
    rewrite encode_mapM, Hsplit, mapM_app by done.
    change (encode_mode (encode_with fatal)) with fatal.
    rewrite Hb1. cbn [bind mapM]. destruct Hun as (H1 & H2 & H3).
    rewrite encoded_unencodable by done.
    unfold fromCodePoint1.
    replace ((s <? 0) || (s >? 0x10FFFF)) with false by lia.
    replace (s <=? 0xFFFF) with true by lia. reflexivity.
Qed.

(* ===================================================================== *)
(** ** Further properties: the two modes *)
(* ===================================================================== *)

Lemma mapM_lookup {A B} (f : A -> completion B) (l : list A) (bs : list B) (i : nat) (a : A) :
  mapM f l = Normal bs -> l !! i = Some a ->
  exists b, bs !! i = Some b /\ f a = Normal b.
Proof.
  revert bs i. induction l as [|a' l IH]; intros bs i H Hi; [done|].
  simpl in H. destruct (f a') as [b'|] eqn:Hb; simpl in H; [|discriminate].
  destruct (mapM f l) as [bs'|] eqn:Hbs; simpl in H; [|discriminate].
  injection H as <-. destruct i as [|i]; simpl in Hi.
  - injection Hi as ->. by exists b'.
  - by apply (IH bs' i).
Qed.

Lemma mapM_Normal_Forall {A B} (f : A -> completion B) (l : list A) (bs : list B) :
  mapM f l = Normal bs -> Forall (fun a => is_Normal (f a)) l.
Proof.
  revert bs. induction l as [|a l IH]; intros bs H; [constructor|].
  simpl in H. destruct (f a) as [b|] eqn:Hb; simpl in H; [|discriminate].
  destruct (mapM f l) as [bs'|] eqn:Hbs; simpl in H; [|discriminate].
  constructor; [by rewrite Hb|by apply (IH bs')].
Qed.

Lemma mapM_ext_in {A B} (f g : A -> completion B) (l : list A) (bs : list B) :
  (forall a b, f a = Normal b -> g a = Normal b) ->
  mapM f l = Normal bs -> mapM g l = Normal bs.
Proof.
  intros Hfg. revert bs. induction l as [|a l IH]; intros bs H; [done|].
  simpl in *. destruct (f a) as [b|] eqn:Hb; simpl in H; [|discriminate].
  destruct (mapM f l) as [bs'|] eqn:Hbs; simpl in H; [|discriminate].
  by rewrite (Hfg a b Hb), (IH bs' eq_refl).
Qed.

Lemma mapM_Forall_in_ext {A B} (f g : A -> completion B) (Q : A -> Prop)
    (l : list A) (bs : list B) :
  Forall Q l -> (forall a b, Q a -> f a = Normal b -> g a = Normal b) ->
  mapM f l = Normal bs -> mapM g l = Normal bs.
Proof.
  intros HQ Hfg. revert bs. induction HQ as [|a l Ha _ IH]; intros bs H; [done|].
  simpl in *. destruct (f a) as [b|] eqn:Hb; simpl in H; [|discriminate].
  destruct (mapM f l) as [bs'|] eqn:Hbs; simpl in H; [|discriminate].
  by rewrite (Hfg a b Ha Hb), (IH bs' eq_refl).
Qed.

Lemma decodable_defined (b : Z) :
  decodable h b = true <-> 0 <= b <= 255 /\ b ∉ undefined_bytes.
Proof.
  unfold decodable. split.
  - destruct (byte_zones b) as [H|[H|H]].
    + by rewrite decoded_out_of_range.
    + intros _. split; [lia|]. unfold undefined_bytes. rewrite !not_elem_of_cons.
      repeat split; try lia. apply not_elem_of_nil.
    + rewrite decoded_special by done.
      destruct (Decode.WINDOWS_1252_MAP !! b) as [c|] eqn:E; [|done].
      intros _. apply decode_table_range in E. split; [lia|tauto].
  - intros [Hb Hn]. by destruct (decoded_encoded fatal fatal b Hb Hn) as (v & -> & _).
Qed.

Lemma decoded_modes_agree (b v : Z) :
  decoded h fatal b = Normal v -> decoded h replacement b = Normal v.
Proof.
  destruct (byte_zones b) as [H|[H|H]].
  - by rewrite decoded_out_of_range.
  - by rewrite !decoded_identity.
  - rewrite !decoded_special by done.
    by destruct (Decode.WINDOWS_1252_MAP !! b).
Qed.

(** In replacement mode the element decodes to itself or to its table
    entry when it is decodable, and to U+FFFD otherwise; no decodable
    element decodes to U+FFFD. *)
Lemma decoded_replacement_FFFD (b : Z) :
  decoded h replacement b = Normal 0xFFFD <-> decodable h b = false.
Proof.
  unfold decodable. destruct (byte_zones b) as [H|[H|H]].
  - by rewrite !decoded_out_of_range.
  - rewrite !decoded_identity by done. split; [|done]. intros [= ->]. lia.
  - rewrite !decoded_special by done.
    destruct (Decode.WINDOWS_1252_MAP !! b) as [c|] eqn:E; [|done].
    apply decode_table_range in E. split; [|done]. intros [= ->]. lia.
Qed.

Lemma encodable_unencodable (c : Z) :
  0 <= c -> (encodable c = true <-> ~ unencodable c).
Proof.
  intros Hc. unfold encodable. split.
  - intros H (H1 & H2 & H3). rewrite encoded_unencodable in H by done.
    simpl in H. by destruct (fromCodePoint1 c).
  - intros Hn. by destruct (encodable_encoded fatal c Hc Hn) as [b ->].
Qed.

Lemma encoded_modes_agree (c b : Z) :
  0 <= c -> encoded fatal c = Normal b -> encoded replacement c = Normal b.
Proof.
  intros Hc. destruct (code_point_zones c Hc) as [H|[H|[[b' H]|(H1 & H2 & H3)]]].
  - by rewrite !encoded_ascii.
  - by rewrite !encoded_latin1.
  - by rewrite !(encoded_table _ c b').
  - rewrite encoded_unencodable by done. simpl. by destruct (fromCodePoint1 c).
Qed.

(** The byte stored for an encodable code point decodes back to it. *)
Lemma encoded_decoded (me md : ErrorMode) (c b : Z) :
  0 <= c -> ~ unencodable c -> encoded me c = Normal b -> decoded h md b = Normal c.
Proof.
  intros Hc Hn. destruct (code_point_zones c Hc) as [H|[H|[[b' H]|H]]]; [| | |done].
  - rewrite encoded_ascii by done. intros [= <-]. apply decoded_identity. lia.
  - rewrite encoded_latin1 by done. intros [= <-]. apply decoded_identity. lia.
  - rewrite (encoded_table _ c b') by done. intros [= <-].
    pose proof (encode_table_range c b' H) as (Hr & _ & _).
    rewrite decoded_special by done.
    by rewrite (encode_table_decode_table c b' H).
Qed.

(** A string all of whose code points are encodable holds no surrogate:
    it is the sequence of its own code points. *)
Lemma code_points_encodable (s : jsstring) :
  Forall (fun c => ~ unencodable c) (code_points s) -> code_points s = s.
Proof.
  induction s as [|u|u v s IH1 IH2] using jsstring_pair_ind; [done..|].
  rewrite code_points_cons2.
  destruct (is_high_surrogate u) eqn:Eh, (is_low_surrogate v) eqn:El;
    cbn [andb]; intros H; apply Forall_cons in H as [Hu H];
    try (f_equal; exact (IH2 H)).
  exfalso. apply Hu. apply surrogate_unencodable. right. right.
  pose proof (surrogate_pair_range u v Eh El) as Hr. split; [lia|].
  destruct (Encode.UNICODE_TO_WINDOWS_1252 !! surrogate_pair u v) eqn:E; [|done].
  apply encode_table_range in E. lia.
Qed.

Lemma encodable_no_high (s : jsstring) :
  Forall (fun u => ~ unencodable u) s ->
  Forall (fun u => is_high_surrogate u = false) s.
Proof.
  intros H. eapply Forall_impl; [exact H|]. intros u Hu. simpl in Hu.
  destruct (is_high_surrogate u) eqn:E; [|done].
  exfalso. apply Hu. apply surrogate_unencodable.
  unfold is_high_surrogate in E. lia.
Qed.

(** X1. [decode] distributes over concatenation, whatever the options,
    as long as the whole input has no more elements than the host
    accepts arguments in a call: the text of [a ++ b] is the text of [a]
    followed by the text of [b], and the call throws what the first
    throwing part throws. *)
Theorem decode_app (a b : list Z) (options : option Decode.DecodeOptions) :
  (length (a ++ b) <= argument_limit h)%nat ->
  Decode.decode h (a ++ b) options
  = bind (Decode.decode h a options) (fun ta =>
    bind (Decode.decode h b options) (fun tb => Normal (ta ++ tb))).
Proof.
  intros Hlen. pose proof Hlen as Hlen'. rewrite length_app in Hlen'.
  rewrite !decode_within_limit by lia. apply mapM_app.
Qed.

(** X2. [encode] distributes over the concatenation of two strings
    unless the first ends in a high surrogate and the second starts with
    a low one: all three calls return, and the result for [s1 ++ s2] is
    the bytes of [s1] followed by the bytes of [s2], or what the first
    throwing part throws. *)
Theorem encode_app (s1 s2 : jsstring) (options : option Encode.EncodeOptions) :
  wf_jsstring (s1 ++ s2) ->
  (forall u v, last s1 = Some u -> head s2 = Some v ->
               is_high_surrogate u && is_low_surrogate v = false) ->
  exists r1 r2,
    Encode.encode s1 options = Some r1
    /\ Encode.encode s2 options = Some r2
    /\ Encode.encode (s1 ++ s2) options
       = Some (bind r1 (fun b1 => bind r2 (fun b2 => Normal (b1 ++ b2)))).
Proof.
  intros Hwf Hsplit.
  pose proof Hwf as Hwf'. unfold wf_jsstring in Hwf'.
  apply Forall_app in Hwf' as [H1 H2].
  do 2 eexists. rewrite !encode_mapM by done.
  split; [reflexivity|]. split; [reflexivity|].
  by rewrite code_points_app, mapM_app.
Qed.

(** X3. [decode] in fatal mode returns exactly when every element is a
    byte of [0,255] other than the five undefined ones and the input has
    no more elements than the host accepts arguments in a call; whenever
    it returns, it returns what replacement mode returns. *)
Theorem decode_fatal_iff (bytes : list Z) :
  (is_Normal (Decode.decode h bytes (decode_with fatal))
   <-> Forall (fun b => 0 <= b <= 255 /\ b ∉ undefined_bytes) bytes
       /\ (length bytes <= argument_limit h)%nat)
  /\ (forall text,
        Decode.decode h bytes (decode_with fatal) = Normal text ->
        Decode.decode h bytes (decode_with replacement) = Normal text).
Proof.
  split; [split|].
  - destruct (Decode.decode h bytes (decode_with fatal)) as [text|] eqn:E; [intros _|done].
    apply decode_Normal_inv in E as [E Hlen]. split; [|done].
    change (decode_mode (decode_with fatal)) with fatal in E.
    apply mapM_Normal_Forall in E. eapply Forall_impl; [exact E|].
    intros b Hb. simpl in Hb. apply decodable_defined. unfold decodable.
    by destruct (decoded h fatal b).
  - intros [Hdef Hlen]. rewrite decode_within_limit by done.
    change (decode_mode (decode_with fatal)) with fatal.
    by destruct (mapM_decoded_encoded fatal fatal bytes Hdef) as (vs & -> & _).
  - intros text Hdec. apply decode_Normal_inv in Hdec as [Hdec Hlen].
    rewrite decode_within_limit by done. revert Hdec.
    apply mapM_ext_in. apply decoded_modes_agree.
Qed.

(** On a well-formed string fatal encoding returns exactly when no unit
    is unencodable. *)
Lemma encode_fatal_iff_units (str : jsstring) :
  wf_jsstring str ->
  ((exists bytes, Encode.encode str (encode_with fatal) = Some (Normal bytes))
   <-> Forall (fun u => ~ unencodable u) str)
  /\ (forall bytes,
        Encode.encode str (encode_with fatal) = Some (Normal bytes) ->
        Forall (fun c => ~ unencodable c) (code_points str)).
Proof.
  intros Hwf. rewrite !encode_mapM by done.
  change (encode_mode (encode_with fatal)) with fatal.
  pose proof (code_points_wf str Hwf) as Hcps.
  assert (Henc : forall bytes,
             mapM (encoded fatal) (code_points str) = Normal bytes ->
             Forall (fun c => ~ unencodable c) (code_points str)).
  { intros bytes E. apply mapM_Normal_Forall in E.
    rewrite Forall_forall in E, Hcps. apply Forall_forall. intros c Hin.
    specialize (E c Hin). specialize (Hcps c Hin). simpl in *.
    apply encodable_unencodable; [lia|]. unfold encodable.
    by destruct (encoded fatal c). }
  split; [split|].
  - intros [bytes [= E]]. specialize (Henc bytes E).
    by rewrite <- (code_points_encodable str Henc).
  - intros H. rewrite (code_points_no_high str (encodable_no_high str H)).
    destruct (mapM_total_in (encoded fatal) (fun u => 0 <= u /\ ~ unencodable u) str)
      as [bytes ->]; [| |by eauto].
    + unfold wf_jsstring in Hwf. rewrite Forall_forall in Hwf, H.
      apply Forall_forall. intros u Hin. split; [apply (Hwf u Hin)|apply (H u Hin)].
    + intros u [Hu Hn]. by apply encodable_encoded.
  - intros bytes [= E]. by apply (Henc bytes).
Qed.

(** X4. On a well-formed string [encode] in fatal mode returns exactly
    when no unit of the string is unencodable (so the string holds no
    surrogate at all), and then it returns what replacement mode returns,
    one byte per unit. *)
Theorem encode_fatal_iff (str : jsstring) :
  wf_jsstring str ->
  ((exists bytes, Encode.encode str (encode_with fatal) = Some (Normal bytes))
   <-> Forall (fun u => ~ unencodable u) str)
  /\ (forall bytes,
        Encode.encode str (encode_with fatal) = Some (Normal bytes) ->
        Encode.encode str (encode_with replacement) = Some (Normal bytes)
        /\ length bytes = length str).
Proof.
  intros Hwf. destruct (encode_fatal_iff_units str Hwf) as [Hiff Hcp].
  split; [exact Hiff|].
  intros bytes Henc. specialize (Hcp bytes Henc).
  pose proof (code_points_wf str Hwf) as Hcps.
  rewrite encode_mapM in Henc |- * by done.
  change (encode_mode (encode_with fatal)) with fatal in Henc.
  change (encode_mode (encode_with replacement)) with replacement.
  injection Henc as E. split.
  - f_equal. revert E. apply mapM_Forall_in_ext with (Q := fun c => 0 <= c).
    + eapply Forall_impl; [exact Hcps|]. intros c Hc. simpl in Hc. lia.
    + intros c b Hc. by apply encoded_modes_agree.
  - pose proof (code_points_encodable str Hcp) as Hsame.
    apply mapM_length in E. by rewrite E, Hsame.
Qed.

(* ===================================================================== *)
(** ** Further properties: round trips *)
(* ===================================================================== *)

(** X5. A sequence of bytes of [0,255] that holds none of the five
    undefined bytes, and has no more elements than the host accepts
    arguments in a call, decodes, in either mode, to a text that encodes,
    in either mode, back to the same sequence. *)
Theorem round_trip_sequence (md me : ErrorMode) (bytes : list Z) :
  Forall (fun b => 0 <= b <= 255 /\ b ∉ undefined_bytes) bytes ->
  (length bytes <= argument_limit h)%nat ->
  exists text,
    Decode.decode h bytes (decode_with md) = Normal text
    /\ length text = length bytes
    /\ Encode.encode text (encode_with me) = Some (Normal bytes).
Proof.
  intros Hdef Hlen.
  destruct (round_trip_bytes md me bytes Hdef Hlen) as (text & H1 & H2).
  exists text. split; [done|]. split; [|done].
  apply decode_Normal_inv in H1 as [H1 _]. by apply mapM_length in H1.
Qed.

Lemma mapM_encoded_decoded (me md : ErrorMode) (s bytes : list Z) :
  Forall (fun c => 0 <= c /\ ~ unencodable c) s ->
  mapM (encoded me) s = Normal bytes -> mapM (decoded h md) bytes = Normal s.
Proof.
  intros H. revert bytes. induction H as [|c s [Hc Hn] _ IH]; intros bytes E.
  - by injection E as <-.
  - simpl in E. destruct (encoded me c) as [b|] eqn:Hb; simpl in E; [|discriminate].
    destruct (mapM (encoded me) s) as [bs|] eqn:Hbs; simpl in E; [|discriminate].
    injection E as <-. simpl.
    by rewrite (encoded_decoded me md c b Hc Hn Hb), (IH bs eq_refl).
Qed.

(** The bytes fatal encoding returns for a well-formed string are as
    many as its units, and the loop of [decode] stores the string for
    them. *)
Lemma encode_fatal_decoded (md : ErrorMode) (str : jsstring) (bytes : list Z) :
  wf_jsstring str ->
  Encode.encode str (encode_with fatal) = Some (Normal bytes) ->
  mapM (decoded h md) bytes = Normal str /\ length bytes = length str.
Proof.
  intros Hwf Henc.
  pose proof (proj1 (proj1 (encode_fatal_iff_units str Hwf)) (ex_intro _ bytes Henc)) as Hun.
  rewrite encode_mapM in Henc by done. injection Henc as Henc.
  rewrite (code_points_no_high str (encodable_no_high str Hun)) in Henc.
  split; [|by apply mapM_length in Henc].
  apply (mapM_encoded_decoded fatal _ str bytes); [|done].
  unfold wf_jsstring in Hwf. rewrite Forall_forall in Hwf, Hun.
  apply Forall_forall. intros u Hin. split; [apply (Hwf u Hin)|apply (Hun u Hin)].
Qed.

(** X6. Whatever well-formed string [encode] returns bytes for in fatal
    mode, [decode] returns that string for those bytes, for every
    options value, as long as the string has no more units than the host
    accepts arguments in a call. *)
Theorem round_trip_text (str : jsstring) (bytes : list Z)
    (options : option Decode.DecodeOptions) :
  wf_jsstring str ->
  (length str <= argument_limit h)%nat ->
  Encode.encode str (encode_with fatal) = Some (Normal bytes) ->
  Decode.decode h bytes options = Normal str.
Proof.
  intros Hwf Hlen Henc.
  destruct (encode_fatal_decoded (decode_mode options) str bytes Hwf Henc) as [H1 H2].
  by rewrite decode_within_limit by lia.
Qed.

(** X7. In the text [decode] returns in replacement mode, U+FFFD stands
    exactly at the positions of the elements that are not decodable
    (outside [0,255] or one of the five undefined bytes): no decodable
    byte decodes to U+FFFD. *)
Theorem decode_replacement_marks (bytes : list Z) (text : jsstring) (i : nat) (b : Z) :
  Decode.decode h bytes (decode_with replacement) = Normal text ->
  bytes !! i = Some b ->
  (text !! i = Some 0xFFFD <-> ~ (0 <= b <= 255 /\ b ∉ undefined_bytes)).
Proof.
  intros Hdec Hb. apply decode_Normal_inv in Hdec as [Hdec _].
  change (decode_mode (decode_with replacement)) with replacement in Hdec.
  destruct (mapM_lookup _ _ _ i b Hdec Hb) as (v & Hv & Hdv).
  rewrite Hv, <- decodable_defined.
  split.
  - intros [= ->]. apply decoded_replacement_FFFD in Hdv. by rewrite Hdv.
  - intros Hn. f_equal.
    assert (Hf : decodable h b = false) by (by destruct (decodable h b)).
    apply decoded_replacement_FFFD in Hf. congruence.
Qed.

Lemma encoded_replacement_decoded (md : ErrorMode) (c : Z) :
  0 <= c ->
  exists b, encoded replacement c = Normal b
            /\ decoded h md b = Normal (if encodable c then c else 0x3F).
Proof.
  intros Hc. destruct (encodable c) eqn:E.
  - apply encodable_unencodable in E; [|done].
    destruct (encodable_encoded replacement c Hc E) as [b Hb].
    exists b. split; [done|]. by apply (encoded_decoded replacement md c b).
  - assert (Hun : unencodable c).
    { destruct (code_point_zones c Hc) as [H|[H|[[b' H]|H]]]; [| | |done];
        exfalso; unfold encodable in E.
      - by rewrite encoded_ascii in E.
      - by rewrite encoded_latin1 in E.
      - by rewrite (encoded_table _ c b') in E. }
    exists 0x3F. split; [by apply encoded_replacement_unencodable|].
    apply decoded_identity. lia.
Qed.

(** X8. For a well-formed string whose code points are no more than
    the host accepts arguments in a call, decoding what [encode] returns
    in replacement mode gives back the code points of the string, with
    0x3F (the question mark) in place of every code point that is not
    encodable. *)
Theorem encode_replacement_decode (str : jsstring)
    (options : option Decode.DecodeOptions) :
  wf_jsstring str ->
  (length (code_points str) <= argument_limit h)%nat ->
  exists bytes,
    Encode.encode str (encode_with replacement) = Some (Normal bytes)
    /\ Decode.decode h bytes options
       = Normal (map (fun c => if encodable c then c else 0x3F) (code_points str)).
Proof.
  intros Hwf Hlen. rewrite encode_mapM by done.
  change (encode_mode (encode_with replacement)) with replacement.
  pose proof (code_points_wf str Hwf) as Hcps.
  enough (exists bytes,
             mapM (encoded replacement) (code_points str) = Normal bytes
             /\ mapM (decoded h (decode_mode options)) bytes
                = Normal (map (fun c => if encodable c then c else 0x3F) (code_points str)))
    as (bytes & H1 & H2).
  { exists bytes. rewrite H1. split; [done|].
    rewrite decode_within_limit; [done|].
    apply mapM_length in H1. lia. }
  clear Hlen. induction Hcps as [|c cps Hc _ (bytes & H1 & H2)]; [by exists []|].
  destruct (encoded_replacement_decoded (decode_mode options) c ltac:(lia)) as (b & Hb & Hd).
  exists (b :: bytes). simpl. by rewrite Hb, H1, Hd, H2.
Qed.

Lemma decoded_replacement_encoded (b : Z) :
  exists v, decoded h replacement b = Normal v
            /\ encoded replacement v = Normal (if decodable h b then b else 0x3F).
Proof.
  destruct (decodable h b) eqn:E.
  - apply decodable_defined in E as [Hb Hn].
    destruct (decoded_encoded replacement replacement b Hb Hn) as (v & Hv & Hv').
    by exists v.
  - apply decoded_replacement_FFFD in E. exists 0xFFFD. split; [done|].
    apply encoded_replacement_unencodable. apply surrogate_unencodable.
    right. right. split; [lia|]. vm_compute. reflexivity.
Qed.

(** X9. For an input of no more elements than the host accepts
    arguments in a call, encoding, in replacement mode, the text [decode]
    returns in replacement mode gives back the input with 0x3F in place
    of every element that is not decodable; in fatal mode the same call
    throws as soon as one element is not decodable, U+FFFD having no
    byte. *)
Theorem decode_replacement_encode (bytes : list Z) :
  (length bytes <= argument_limit h)%nat ->
  exists text,
    Decode.decode h bytes (decode_with replacement) = Normal text
    /\ Encode.encode text (encode_with replacement)
       = Some (Normal (map (fun b => if decodable h b then b else 0x3F) bytes))
    /\ (Exists (fun b => decodable h b = false) bytes ->
        exists e, Encode.encode text (encode_with fatal) = Some (Throw e)).
Proof.
  intros Hlen.
  destruct (mapM_replacement_total bytes) as [vs Hvs].
  assert (Hdec : Decode.decode h bytes (decode_with replacement) = Normal vs)
    by (by rewrite decode_within_limit).
  pose proof (decode_wf _ _ _ Hdec) as Hwf.
  pose proof (code_points_no_high vs (decode_no_surrogates _ _ _ Hdec)) as Hcps.
  exists vs. split; [done|]. rewrite !encode_mapM, Hcps by done.
  change (encode_mode (encode_with replacement)) with replacement.
  change (encode_mode (encode_with fatal)) with fatal.
  clear Hdec Hwf Hcps Hlen. split.
  - f_equal. revert vs Hvs. induction bytes as [|b bytes IH]; intros vs Hvs.
    + by injection Hvs as <-.
    + simpl in Hvs.
      destruct (decoded_replacement_encoded b) as (v & Hv & Hv').
      rewrite Hv in Hvs. simpl in Hvs.
      destruct (mapM (decoded h replacement) bytes) as [vs'|] eqn:E; [|discriminate].
      injection Hvs as <-. simpl. by rewrite Hv', (IH vs' eq_refl).
  - intros Hex. apply Exists_exists in Hex as (b & Hin & Hb).
    apply list_elem_of_lookup in Hin as [i Hi].
    destruct (mapM_lookup _ _ _ i b Hvs Hi) as (v & Hv & Hdv).
    apply decoded_replacement_FFFD in Hb. rewrite Hb in Hdv. injection Hdv as <-.
    pose proof (mapM_Throw_elem (encoded fatal) vs 0xFFFD) as Hthrow.
    destruct (mapM (encoded fatal) vs) as [bs|e]; [|eauto].
    exfalso. apply Hthrow.
    + apply list_elem_of_lookup. eauto.
    + vm_compute. exact I.
Qed.

Lemma code_points_length_lower (s : jsstring) :
  (length s <= 2 * length (code_points s))%nat.
Proof.
  induction s as [|u|u v s IH1 IH2] using jsstring_pair_ind; [simpl; lia..|].
  rewrite code_points_cons2.
  destruct (is_high_surrogate u && is_low_surrogate v); simpl in *; lia.
Qed.

(** X10. On a well-formed string [encode] always completes within the
    iterations it is given, for every options value; when it returns, the
    number of bytes is at most the number of units of the string and at
    least half of it, and equal to it when the string holds no high
    surrogate. *)
Theorem encode_length_bounds (str : jsstring) (options : option Encode.EncodeOptions) :
  wf_jsstring str ->
  (exists r, Encode.encode str options = Some r)
  /\ (forall bytes,
        Encode.encode str options = Some (Normal bytes) ->
        (length bytes <= length str <= 2 * length bytes)%nat
        /\ (Forall (fun u => is_high_surrogate u = false) str ->
            length bytes = length str)).
Proof.
  intros Hwf. rewrite encode_mapM by done. split; [eauto|].
  intros bytes [= E]. apply mapM_length in E. rewrite E.
  pose proof (code_points_length str). pose proof (code_points_length_lower str).
  split; [lia|]. intros Hno. by rewrite (code_points_no_high str Hno).
Qed.


(** X12. In fatal mode both functions are injective where they return:
    two inputs of [decode] with the same text are equal, and two
    well-formed strings with the same bytes are equal. *)
Theorem fatal_injective :
  (forall bytes1 bytes2 text,
      Decode.decode h bytes1 (decode_with fatal) = Normal text ->
      Decode.decode h bytes2 (decode_with fatal) = Normal text ->
      bytes1 = bytes2)
  /\ (forall str1 str2 bytes,
        wf_jsstring str1 -> wf_jsstring str2 ->
        Encode.encode str1 (encode_with fatal) = Some (Normal bytes) ->
        Encode.encode str2 (encode_with fatal) = Some (Normal bytes) ->
        str1 = str2).
Proof.
  split.
  - assert (Hinv : forall bytes text,
               Decode.decode h bytes (decode_with fatal) = Normal text ->
               Encode.encode text (encode_with fatal) = Some (Normal bytes)).
    { intros bytes text Hdec. apply decode_Normal_inv in Hdec as [Hdec _].
      change (decode_mode (decode_with fatal)) with fatal in Hdec.
      assert (Hdef : Forall (fun b => 0 <= b <= 255 /\ b ∉ undefined_bytes) bytes).
      { pose proof (mapM_Normal_Forall _ _ _ Hdec) as Hall.
        eapply Forall_impl; [exact Hall|]. intros b Hb. simpl in Hb.
        apply decodable_defined. unfold decodable.
        by destruct (decoded h fatal b). }
      destruct (round_trip_loop fatal fatal bytes Hdef) as (text' & H1 & H2).
      congruence. }
    intros bytes1 bytes2 text H1 H2.
    apply Hinv in H1, H2. congruence.
  - intros str1 str2 bytes Hwf1 Hwf2 H1 H2.
    destruct (encode_fatal_decoded fatal str1 bytes Hwf1 H1) as [E1 _].
    destruct (encode_fatal_decoded fatal str2 bytes Hwf2 H2) as [E2 _].
    congruence.
Qed.

(** X13. Whenever [decode] returns, in either mode, the text has as many
    units as the input has elements, every unit fits 16 bits and none is
    a surrogate, so the text is the sequence of its own code points. *)
Theorem decode_output_well_formed (bytes : list Z)
    (options : option Decode.DecodeOptions) (text : jsstring) :
  Decode.decode h bytes options = Normal text ->
  length text = length bytes
  /\ wf_jsstring text
  /\ Forall (fun u => is_high_surrogate u = false /\ is_low_surrogate u = false) text
  /\ code_points text = text.
Proof.
  intros Hdec. split; [|split; [|split]].
  - apply decode_Normal_inv in Hdec as [Hdec _]. by apply mapM_length in Hdec.
  - by eapply decode_wf.
  - apply decode_Normal_inv in Hdec as [Hdec _]. revert Hdec. apply mapM_Forall.
    intros b v Hv. apply decoded_bmp in Hv. tauto.
  - apply code_points_no_high. by eapply decode_no_surrogates.
Qed.

End WithHost.

(* ===================================================================== *)
(** ** Instances *)
(* ===================================================================== *)

(** The theorems above at concrete inputs; those about [decode] are taken
    at [example_host], whose calls accept up to four arguments. *)

Lemma decode_replacement_argument_limit_witness :
  (exists text,
      Decode.decode example_host [0x48; 0x81; -1] (decode_with replacement) = Normal text
      /\ length text = length [0x48; 0x81; -1]
      /\ code_points text = text)
  /\ Decode.decode example_host [0x41; 0x41; 0x41; 0x41; 0x41] (decode_with replacement)
     = Throw RangeError.
Proof.
  split.
  - apply (proj1 (proj2 (decode_replacement_argument_limit example_host [0x48; 0x81; -1]))).
    vm_compute. lia.
  - apply (proj2 (proj2 (decode_replacement_argument_limit example_host
                           [0x41; 0x41; 0x41; 0x41; 0x41]))).
    vm_compute. lia.
Defined.

Lemma decode_zone_identity_witness :
  Decode.decode example_host [0x41] (decode_with fatal) = Normal [0x41]
  /\ Decode.decode example_host [0xE9] None = Normal [0xE9].
Proof.
  split.
  - apply (decode_zone_identity example_host 0x41). lia.
  - apply (decode_zone_identity example_host 0xE9). lia.
Defined.

Lemma decode_fatal_undefined_bytes_witness :
  (0x81 ∈ undefined_bytes
   <-> is_Throw (Decode.decode example_host [0x81] (decode_with fatal)))
  /\ (0x80 ∉ undefined_bytes
      <-> is_Normal (Decode.decode example_host [0x80] (decode_with fatal))).
Proof.
  split.
  - exact (proj1 (decode_fatal_undefined_bytes example_host 0x81 ltac:(lia))).
  - exact (proj1 (proj2 (decode_fatal_undefined_bytes example_host 0x80 ltac:(lia)))).
Defined.


Lemma round_trip_byte_witness :
  exists text,
    Decode.decode example_host [0x80] (decode_with replacement) = Normal text
    /\ Encode.encode text (encode_with fatal) = Some (Normal [0x80]).
Proof.
  apply (round_trip_byte example_host 0x80 fatal); [lia|].
  unfold undefined_bytes. rewrite !not_elem_of_cons.
  repeat split; try lia. apply not_elem_of_nil.
Defined.

Lemma encode_output_defined_witness :
  exists bytes,
    Encode.encode (lit "Hello " ++ [0xD83D; 0xDE0A]) (encode_with replacement)
    = Some (Normal bytes)
    /\ Decode.decode example_host bytes (decode_with fatal) = Throw RangeError.
Proof.
  assert (Hwf : wf_jsstring (lit "Hello " ++ [0xD83D; 0xDE0A])).
  { unfold wf_jsstring. repeat constructor; vm_compute; discriminate. }
  destruct (proj2 (encode_output_defined example_host _ Hwf))
    as (bytes & Henc & _ & _ & Hlong).
  exists bytes. split; [exact Henc|]. apply Hlong.
  vm_compute in Henc. injection Henc as <-. vm_compute. lia.
Defined.

Lemma encode_unencodable_code_point_witness :
  exists rendered hex msg,
    fromCodePoint1 0x1F60A = Normal rendered
    /\ code_points rendered = [0x1F60A]
    /\ UnencodableCharacter rendered hex = Error msg
    /\ occurs_in rendered msg
    /\ occurs_in (lit "U+" ++ hex) msg
    /\ (4 <= length hex)%nat
    /\ parse_upper_hex hex = Some 0x1F60A
    /\ Encode.encode rendered (encode_with fatal)
       = Some (Throw (UnencodableCharacter rendered hex))
    /\ Encode.encode rendered (encode_with replacement) = Some (Normal [0x3F]).
Proof.
  assert (Hun : unencodable 0x1F60A).
  { apply (proj1 encode_unencodable_code_point). right. right.
    split; [lia|]. vm_compute. reflexivity. }
  destruct (proj2 encode_unencodable_code_point 0x1F60A Hun ltac:(lia))
    as (rendered & hex & msg & H1 & H2 & H3 & H4 & H5 & H6 & H7 & H8 & H9 & _).
  exists rendered, hex, msg. tauto.
Defined.

Lemma encode_by_code_point_witness :
  (exists bytes,
      Encode.encode (lit "A" ++ [0xD83D; 0xDE0A] ++ lit "B") (encode_with replacement)
      = Some (Normal bytes)
      /\ length bytes = length (code_points (lit "A" ++ [0xD83D; 0xDE0A] ++ lit "B")))
  /\ (exists b1 b2,
        Encode.encode (lit "A") (encode_with replacement) = Some (Normal b1)
        /\ Encode.encode (lit "B") (encode_with replacement) = Some (Normal b2)
        /\ Encode.encode (lit "A" ++ 0xD83D :: lit "B") (encode_with replacement)
           = Some (Normal (b1 ++ 0x3F :: b2))).
Proof.
  destruct encode_by_code_point as (_ & _ & Hlen & _ & Hlone).
  split.
  - apply Hlen. unfold wf_jsstring. repeat constructor; vm_compute; discriminate.
  - apply Hlone.
    + unfold wf_jsstring. repeat constructor; vm_compute; discriminate.
    + left. split; [reflexivity|]. intros v [= <-]. reflexivity.
Defined.

Lemma decode_app_witness :
  Decode.decode example_host ([0x48; 0x80] ++ [0x81; 0xE9]) None
  = bind (Decode.decode example_host [0x48; 0x80] None) (fun ta =>
    bind (Decode.decode example_host [0x81; 0xE9] None) (fun tb => Normal (ta ++ tb))).
Proof.
  apply (decode_app example_host [0x48; 0x80] [0x81; 0xE9] None).
  vm_compute. lia.
Defined.

Lemma encode_app_witness :
  exists r1 r2,
    Encode.encode (lit "Caf") None = Some r1
    /\ Encode.encode [0xE9; 0x20AC] None = Some r2
    /\ Encode.encode (lit "Caf" ++ [0xE9; 0x20AC]) None
       = Some (bind r1 (fun b1 => bind r2 (fun b2 => Normal (b1 ++ b2)))).
Proof.
  apply (encode_app (lit "Caf") [0xE9; 0x20AC] None).
  - unfold wf_jsstring. repeat constructor; vm_compute; discriminate.
  - intros u v [= <-] [= <-]. reflexivity.
Defined.

Lemma decode_fatal_iff_witness :
  Decode.decode example_host [0x48; 0x80] (decode_with replacement) = Normal [0x48; 0x20AC].
Proof.
  refine (proj2 (decode_fatal_iff example_host [0x48; 0x80]) [0x48; 0x20AC] _).
  vm_compute. reflexivity.
Defined.

Lemma encode_fatal_iff_witness :
  (exists bytes, Encode.encode (lit "Hi") (encode_with fatal) = Some (Normal bytes))
  <-> Forall (fun u => ~ unencodable u) (lit "Hi").
Proof.
  refine (proj1 (encode_fatal_iff (lit "Hi") _)).
  unfold wf_jsstring. repeat constructor; vm_compute; discriminate.
Defined.

Lemma round_trip_sequence_witness :
  exists text,
    Decode.decode example_host [0x48; 0x80; 0x99; 0xE9] (decode_with fatal) = Normal text
    /\ length text = length [0x48; 0x80; 0x99; 0xE9]
    /\ Encode.encode text (encode_with fatal) = Some (Normal [0x48; 0x80; 0x99; 0xE9]).
Proof.
  apply (round_trip_sequence example_host fatal fatal [0x48; 0x80; 0x99; 0xE9]).
  - repeat (apply Forall_cons; split;
            [split; [lia|]; unfold undefined_bytes; rewrite !not_elem_of_cons;
             repeat split; try lia; apply not_elem_of_nil|]).
    apply Forall_nil_2.
  - vm_compute. lia.
Defined.

Lemma round_trip_text_witness :
  Decode.decode example_host [0x80; 0x31] None = Normal [0x20AC; 0x31].
Proof.
  apply (round_trip_text example_host [0x20AC; 0x31] [0x80; 0x31] None).
  - unfold wf_jsstring. repeat constructor; lia.
  - vm_compute. lia.
  - vm_compute. reflexivity.
Defined.

Lemma decode_replacement_marks_witness :
  [0x48; 0xFFFD; 0x20AC] !! 1%nat = Some 0xFFFD
  <-> ~ (0 <= 0x81 <= 255 /\ 0x81 ∉ undefined_bytes).
Proof.
  apply (decode_replacement_marks example_host [0x48; 0x81; 0x80]
           [0x48; 0xFFFD; 0x20AC] 1 0x81).
  - vm_compute. reflexivity.
  - reflexivity.
Defined.

Lemma encode_replacement_decode_witness :
  exists bytes,
    Encode.encode (lit "Hi " ++ [0xD83D; 0xDE0A]) (encode_with replacement)
    = Some (Normal bytes)
    /\ Decode.decode example_host bytes None
       = Normal (map (fun c => if encodable c then c else 0x3F)
                     (code_points (lit "Hi " ++ [0xD83D; 0xDE0A]))).
Proof.
  apply (encode_replacement_decode example_host (lit "Hi " ++ [0xD83D; 0xDE0A]) None).
  - unfold wf_jsstring. repeat constructor; vm_compute; discriminate.
  - vm_compute. lia.
Defined.

Lemma decode_replacement_encode_witness :
  exists text,
    Decode.decode example_host [0x48; 0x81; 300] (decode_with replacement) = Normal text
    /\ Encode.encode text (encode_with replacement)
       = Some (Normal (map (fun b => if decodable example_host b then b else 0x3F)
                           [0x48; 0x81; 300]))
    /\ exists e, Encode.encode text (encode_with fatal) = Some (Throw e).
Proof.
  destruct (decode_replacement_encode example_host [0x48; 0x81; 300])
    as (text & H1 & H2 & H3).
  - vm_compute. lia.
  - exists text. split; [done|]. split; [done|].
    apply H3. apply Exists_cons_tl, Exists_cons_hd. vm_compute. reflexivity.
Defined.

Lemma encode_length_bounds_witness :
  exists r, Encode.encode (lit "A" ++ [0xD83D; 0xDE0A]) (encode_with replacement) = Some r.
Proof.
  refine (proj1 (encode_length_bounds (lit "A" ++ [0xD83D; 0xDE0A])
                   (encode_with replacement) _)).
  unfold wf_jsstring. repeat constructor; vm_compute; discriminate.
Defined.


Lemma fatal_injective_witness :
  [0x20AC; 0x41] = [0x20AC; 0x41].
Proof.
  refine (proj2 (fatal_injective example_host)
            [0x20AC; 0x41] [0x20AC; 0x41] [0x80; 0x41] _ _ _ _).
  - unfold wf_jsstring. repeat constructor; lia.
  - unfold wf_jsstring. repeat constructor; lia.
  - vm_compute. reflexivity.
  - vm_compute. reflexivity.
Defined.

Lemma decode_output_well_formed_witness :
  length [0x48; 0x20AC; 0xFFFD] = length [0x48; 0x80; -1]
  /\ wf_jsstring [0x48; 0x20AC; 0xFFFD].
Proof.
  destruct (decode_output_well_formed example_host [0x48; 0x80; -1] None
              [0x48; 0x20AC; 0xFFFD]) as (H1 & H2 & _).
  - vm_compute. reflexivity.
  - split; [exact H1|exact H2].
Defined.
